(** * The card slideshow state machine of vegan-cards

    A shallow embedding of the React component [CardCollection]
    (src/components/CardCollection.jsx), whose logic is repeated line for
    line in [CardSlideshow] (src/components/slideshow/CardSlideshow.jsx);
    src/Finitude.js has the same flip, autoplay and swipe handlers.

    What is modelled, and how:
    - the eight [useState] cells are the record [State]; the two [useRef]
      cells and the browser's table of live timers are fields of [World];
    - a function component is run anew for every render, so every handler,
      and every callback handed to [setTimeout] or [setInterval], is a
      closure over the constants of the render that created it.  A [Render]
      is that snapshot (props and state).  Handlers take the render they
      close over as an explicit argument, a timer stores the render its
      callback captured, and [mounted] is the render whose effect (its
      dependency array and its cleanup function) is installed.  A callback
      memoised by [useCallback] is as good as the one of the latest render:
      its dependency array lists every constant it reads;
    - the [setX] calls of one handler or callback form one batch; [commit]
      is the re-render that follows and re-runs the [useEffect] when one of
      its dependencies changed.  Functional updates [setX(prev => ...)] get
      the present cell, plain updates [setX(v)] a value computed from the
      closed-over render;
    - JavaScript numbers are [Z]: indices, progress, pixel coordinates,
      seconds and milliseconds; the operator [%] is [Z.rem] (sign of the
      dividend); [null] is [None];
    - the cards are opaque: only their number and their position matter.

    Beside the slideshow, three modules embed the code around it:
    - [Finitude]: the activity list of src/Finitude.js (edit, save, delete,
      add), the rotation that draws quotes, and the ids the data loader
      gives the default activities;
    - [Translation]: the phrase adapter src/utils/translationAdapter.js
      (filters, the options of the dropdowns, formatting) and the App's
      effect that turns the selections into the cards of the slideshow;
    - [Profile]: the age of the user, as src/utils/calculations.js computes
      it and the settings screen of src/Finitude.js sets it. *)

From Stdlib Require Import ZArith Lia.
From stdpp Require Import base decidable option numbers list gmap strings sorting.

Local Open Scope Z_scope.

(** Handles returned by [setTimeout] and [setInterval]: integers greater than
    zero, so a handle is always truthy; [null] is [None]. *)
Definition timer_id := positive.

Section Slideshow.

Context {Card : Type}.

(** ** Props, state, renders *)

Record Props := mkProps {
  cards : list Card;
  tickInterval : Z;
  initialAutoPlay : bool
}.

Record State := mkState {
  currentCardIndex : Z;
  isAutoPlaying : bool;
  progress : Z;
  isFlipped : bool;
  touchStart : option Z;
  touchEnd : option Z;
  flipTimer : option timer_id;
  wasAutoPlayingBeforeFlip : bool
}.

(** The constants one execution of the component function binds. *)
Record Render := mkRender {
  r_props : Props;
  r_state : State
}.

(** [cards.length] as seen by a render. *)
Definition cards_length (r : Render) : Z := Z.of_nat (length (cards (r_props r))).

(** ** Timers *)

(** The three callbacks the component registers.  The arrow functions passed
    to [setInterval] in [startAutoPlay] and to [setTimeout] in
    [handleCardClick] close over a render. *)
Inductive Callback :=
  | ProgressTick
  | CardRotation (r : Render)
  | FlipBack (r : Render).

Inductive Timer :=
  | Interval (delay : Z) (cb : Callback)
  | Timeout (delay : Z) (cb : Callback).

(** Everything that outlives a render: the props last passed in, the state
    cells, the [.current] of the two refs, the browser's live timers and the
    next handle it will hand out, and the render whose effect is installed. *)
Record World := mkWorld {
  props : Props;
  state : State;
  intervalRef : option timer_id;
  progressRef : option timer_id;
  timers : gmap timer_id Timer;
  next_timer : timer_id;
  mounted : Render
}.

(** The render the component function produces from the present world. *)
Definition render (w : World) : Render := mkRender (props w) (state w).

(** ** State setters

    [setCurrentCardIndex] and [setProgress] take the updater function; the
    others are only ever called with a value. *)

Definition with_state (f : State -> State) (w : World) : World :=
  mkWorld (props w) (f (state w)) (intervalRef w) (progressRef w)
          (timers w) (next_timer w) (mounted w).

Definition setCurrentCardIndex (f : Z -> Z) : World -> World :=
  with_state (fun s =>
    mkState (f (currentCardIndex s)) (isAutoPlaying s) (progress s) (isFlipped s)
            (touchStart s) (touchEnd s) (flipTimer s) (wasAutoPlayingBeforeFlip s)).

Definition setIsAutoPlaying (v : bool) : World -> World :=
  with_state (fun s =>
    mkState (currentCardIndex s) v (progress s) (isFlipped s)
            (touchStart s) (touchEnd s) (flipTimer s) (wasAutoPlayingBeforeFlip s)).

Definition setProgress (f : Z -> Z) : World -> World :=
  with_state (fun s =>
    mkState (currentCardIndex s) (isAutoPlaying s) (f (progress s)) (isFlipped s)
            (touchStart s) (touchEnd s) (flipTimer s) (wasAutoPlayingBeforeFlip s)).

Definition setIsFlipped (v : bool) : World -> World :=
  with_state (fun s =>
    mkState (currentCardIndex s) (isAutoPlaying s) (progress s) v
            (touchStart s) (touchEnd s) (flipTimer s) (wasAutoPlayingBeforeFlip s)).

Definition setTouchStart (v : option Z) : World -> World :=
  with_state (fun s =>
    mkState (currentCardIndex s) (isAutoPlaying s) (progress s) (isFlipped s)
            v (touchEnd s) (flipTimer s) (wasAutoPlayingBeforeFlip s)).

Definition setTouchEnd (v : option Z) : World -> World :=
  with_state (fun s =>
    mkState (currentCardIndex s) (isAutoPlaying s) (progress s) (isFlipped s)
            (touchStart s) v (flipTimer s) (wasAutoPlayingBeforeFlip s)).

Definition setFlipTimer (v : option timer_id) : World -> World :=
  with_state (fun s =>
    mkState (currentCardIndex s) (isAutoPlaying s) (progress s) (isFlipped s)
            (touchStart s) (touchEnd s) v (wasAutoPlayingBeforeFlip s)).

Definition setWasAutoPlayingBeforeFlip (v : bool) : World -> World :=
  with_state (fun s =>
    mkState (currentCardIndex s) (isAutoPlaying s) (progress s) (isFlipped s)
            (touchStart s) (touchEnd s) (flipTimer s) v).

Definition set_props (p : Props) (w : World) : World :=
  mkWorld p (state w) (intervalRef w) (progressRef w)
          (timers w) (next_timer w) (mounted w).

Definition set_intervalRef (v : option timer_id) (w : World) : World :=
  mkWorld (props w) (state w) v (progressRef w)
          (timers w) (next_timer w) (mounted w).

Definition set_progressRef (v : option timer_id) (w : World) : World :=
  mkWorld (props w) (state w) (intervalRef w) v
          (timers w) (next_timer w) (mounted w).

Definition set_mounted (r : Render) (w : World) : World :=
  mkWorld (props w) (state w) (intervalRef w) (progressRef w)
          (timers w) (next_timer w) r.

(** ** The browser's timer interface *)

(** [clearTimeout(h)] / [clearInterval(h)]: the handle leaves the table; a
    handle that is [null] or no longer live is ignored. *)
Definition clearTimer (h : option timer_id) (w : World) : World :=
  match h with
  | Some id =>
      mkWorld (props w) (state w) (intervalRef w) (progressRef w)
              (delete id (timers w)) (next_timer w) (mounted w)
  | None => w
  end.

Definition clearTimeout := clearTimer.
Definition clearInterval := clearTimer.

(** Registering a timer yields a fresh handle. *)
Definition addTimer (t : Timer) (w : World) : timer_id * World :=
  (next_timer w,
   mkWorld (props w) (state w) (intervalRef w) (progressRef w)
           (<[next_timer w := t]> (timers w)) (Pos.succ (next_timer w)) (mounted w)).

Definition setTimeout (cb : Callback) (delay : Z) : World -> timer_id * World :=
  addTimer (Timeout delay cb).

Definition setInterval (cb : Callback) (delay : Z) : World -> timer_id * World :=
  addTimer (Interval delay cb).

(** ** The component *)

(** [const currentCard = cards[currentCardIndex] || null]: an index outside
    the array reads [undefined], which [||] turns into [null]. *)
Definition currentCard (r : Render) : option Card :=
  if currentCardIndex (r_state r) <? 0 then None
  else cards (r_props r) !! Z.to_nat (currentCardIndex (r_state r)).

(** The block that opens both [nextCard] and [prevCard]:
    "Reset flip state when navigating". *)
Definition resetFlipOnNavigate (r : Render) (w : World) : World :=
  if isFlipped (r_state r) then
    let w := clearTimeout (flipTimer (r_state r)) w in
    let w := setIsFlipped false w in
    let w := setFlipTimer None w in
    if wasAutoPlayingBeforeFlip (r_state r) then
      let w := setIsAutoPlaying true w in
      setWasAutoPlayingBeforeFlip false w
    else w
  else w.

Definition nextCard (r : Render) (w : World) : World :=
  let w := resetFlipOnNavigate r w in
  if 0 <? cards_length r then
    let w := setCurrentCardIndex (fun prev => Z.rem (prev + 1) (cards_length r)) w in
    setProgress (fun _ => 0) w
  else w.

Definition prevCard (r : Render) (w : World) : World :=
  let w := resetFlipOnNavigate r w in
  if 0 <? cards_length r then
    let w := setCurrentCardIndex
               (fun prev => Z.rem (prev - 1 + cards_length r) (cards_length r)) w in
    setProgress (fun _ => 0) w
  else w.

(** The updater handed to [setProgress] by the progress interval. *)
Definition progressStep (prev : Z) : Z :=
  if 100 <=? prev then 0 else prev + 1.

(** [if (ref.current) clearInterval(ref.current)] is [clearInterval] of an
    optional handle.  [tickInterval] is a whole number of seconds, so the
    division by 100 is exact; the code computes both delays in doubles,
    and they are these integers as long as [tickInterval * 1000] stays
    within 2^53 in absolute value; the property that states the delays
    is stated inside that range. *)
Definition startAutoPlay (r : Render) (w : World) : World :=
  let w := clearInterval (intervalRef w) w in
  let w := clearInterval (progressRef w) w in
  let w := setProgress (fun _ => 0) w in
  let progressInterval := (tickInterval (r_props r) * 1000) / 100 in
  let '(h, w) := setInterval ProgressTick progressInterval w in
  let w := set_progressRef (Some h) w in
  let '(h, w) := setInterval (CardRotation r) (tickInterval (r_props r) * 1000) w in
  set_intervalRef (Some h) w.

Definition stopAutoPlay (w : World) : World :=
  let w := clearInterval (intervalRef w) w in
  let w := clearInterval (progressRef w) w in
  setProgress (fun _ => 0) w.

(** Body of the [useEffect] "Handle autoplay start/stop". *)
Definition autoplayEffect (r : Render) (w : World) : World :=
  if isAutoPlaying (r_state r) && (0 <? cards_length r) && negb (isFlipped (r_state r))
  then startAutoPlay r w
  else stopAutoPlay w.

(** The function that effect returns. *)
Definition autoplayCleanup (r : Render) (w : World) : World :=
  let w := stopAutoPlay w in
  match flipTimer (r_state r) with
  | Some id => clearTimeout (Some id) w
  | None => w
  end.

(** The callback [handleCardClick] gives to [setTimeout]. *)
Definition flipBack (r : Render) (w : World) : World :=
  let w := setIsFlipped false w in
  let w := setFlipTimer None w in
  let w := if wasAutoPlayingBeforeFlip (r_state r)
           then setIsAutoPlaying true w else w in
  setWasAutoPlayingBeforeFlip false w.

Definition handleCardClick (r : Render) (w : World) : World :=
  if isFlipped (r_state r) then
    let w := clearTimeout (flipTimer (r_state r)) w in
    let w := setIsFlipped false w in
    let w := setFlipTimer None w in
    let w := if wasAutoPlayingBeforeFlip (r_state r)
             then setIsAutoPlaying true w else w in
    setWasAutoPlayingBeforeFlip false w
  else
    let w := setWasAutoPlayingBeforeFlip (isAutoPlaying (r_state r)) w in
    let w := if isAutoPlaying (r_state r)
             then setIsAutoPlaying false w else w in
    let w := setIsFlipped true w in
    let '(timer, w) := setTimeout (FlipBack r) 5000 w in
    setFlipTimer (Some timer) w.

Definition handlePlayPauseClick (r : Render) (w : World) : World :=
  setIsAutoPlaying (negb (isAutoPlaying (r_state r))) w.

Definition handleTouchStart (clientX : Z) (w : World) : World :=
  let w := setTouchEnd None w in
  setTouchStart (Some clientX) w.

Definition handleTouchMove (clientX : Z) (w : World) : World :=
  setTouchEnd (Some clientX) w.

(** [!x] for a cell holding [null] or a number: [null] and [0] are falsy. *)
Definition falsy (x : option Z) : bool :=
  match x with
  | None => true
  | Some v => v =? 0
  end.

(** Past the guard both cells hold numbers; [default 0] is what [null]
    would be in the subtraction. *)
Definition handleTouchEnd (r : Render) (w : World) : World :=
  if falsy (touchStart (r_state r)) || falsy (touchEnd (r_state r)) then w
  else
    let distance := default 0 (touchStart (r_state r)) - default 0 (touchEnd (r_state r)) in
    let isLeftSwipe := 50 <? distance in
    let isRightSwipe := distance <? -50 in
    if isLeftSwipe then nextCard r w
    else if isRightSwipe then prevCard r w
    else w.

(** ** React's render cycle *)

(** The dependency array of the effect.  [startAutoPlay] is memoised on
    [tickInterval, nextCard] and [nextCard] on
    [cards.length, isFlipped, flipTimer, wasAutoPlayingBeforeFlip], so its
    identity changes exactly when one of these values does. *)
Definition deps (r : Render) : bool * Z * Z * Z * bool * option timer_id * bool :=
  (isAutoPlaying (r_state r), currentCardIndex (r_state r), cards_length r,
   tickInterval (r_props r), isFlipped (r_state r), flipTimer (r_state r),
   wasAutoPlayingBeforeFlip (r_state r)).

(** Re-render after a batch of updates: when a dependency differs from the
    render whose effect is installed, that render's cleanup runs, then the
    effect of the new render. *)
Definition commit (w : World) : World :=
  let r := render w in
  if bool_decide (deps (mounted w) = deps r) then w
  else set_mounted r (autoplayEffect r (autoplayCleanup (mounted w) w)).

(** First render and first run of the effect. *)
Definition mount (p : Props) : World :=
  let s := mkState 0 (initialAutoPlay p) 0 false None None None false in
  let r := mkRender p s in
  autoplayEffect r (mkWorld p s None None ∅ 1%positive r).

(** What can happen between two quiescent points. *)
Inductive Event :=
  | ClickNext
  | ClickPrev
  | ClickCard
  | ClickPlayPause
  | TouchStart (clientX : Z)
  | TouchMove (clientX : Z)
  | TouchEnd
  | TimerFires (id : timer_id)
  | NewProps (p : Props).

(** A timer fires: an interval stays in the table, a timeout leaves it. *)
Definition runCallback (cb : Callback) (w : World) : World :=
  match cb with
  | ProgressTick => setProgress progressStep w
  | CardRotation r => nextCard r w
  | FlipBack r => flipBack r w
  end.

Definition fireTimer (id : timer_id) (w : World) : World :=
  match timers w !! id with
  | Some (Interval _ cb) => runCallback cb w
  | Some (Timeout _ cb) => runCallback cb (clearTimer (Some id) w)
  | None => w
  end.

(** With no cards the component returns the "No cards available" box: the
    card, the buttons and the touch surface are not in the document. *)
Definition controlsRendered (r : Render) : bool :=
  negb (cards_length r =? 0).

Definition dispatch (e : Event) (w : World) : World :=
  let r := render w in
  match e with
  | TimerFires id => fireTimer id w
  | NewProps p => set_props p w
  | _ =>
      if controlsRendered r then
        match e with
        | ClickNext => nextCard r w
        | ClickPrev => prevCard r w
        | ClickCard => handleCardClick r w
        | ClickPlayPause => handlePlayPauseClick r w
        | TouchStart x => handleTouchStart x w
        | TouchMove x => handleTouchMove x w
        | TouchEnd => handleTouchEnd r w
        | _ => w
        end
      else w
  end.

(** One event, from quiescent world to quiescent world. *)
Definition step (w : World) (e : Event) : World := commit (dispatch e w).

Definition run (w : World) (es : list Event) : World := foldl step w es.

(** ** Vocabulary of the properties *)

(** A state with the bar emptied: what [setProgress(0)] leaves. *)
Definition resetProgress (s : State) : State :=
  mkState (currentCardIndex s) (isAutoPlaying s) 0 (isFlipped s)
          (touchStart s) (touchEnd s) (flipTimer s) (wasAutoPlayingBeforeFlip s).

(** The table after [clearTimeout(h)]. *)
Definition without (h : option timer_id) (m : gmap timer_id Timer) : gmap timer_id Timer :=
  match h with
  | Some id => delete id m
  | None => m
  end.

(** Events other than a change of props. *)
Definition is_NewProps (e : Event) : bool :=
  match e with
  | NewProps _ => true
  | _ => false
  end.

Definition index_in_range (w : World) : Prop :=
  0 <= currentCardIndex (state w) < cards_length (render w).

(** What the specification asks of the index after a replacement. *)
Definition clampedIndex (currentIndex newLength : Z) : Z :=
  if newLength =? 0 then 0 else Z.min currentIndex (newLength - 1).

(** The worlds the component can be in between two events. *)
Definition reachable (w : World) : Prop :=
  exists p es, w = run (mount p) es.

(** *** The invariant of quiescent worlds *)

Record Inv (w : World) : Prop := mkInv {
  (** the installed effect was run for the present dependencies *)
  inv_deps : deps (mounted w) = deps (render w);
  (** every handle in use was handed out before [next_timer] *)
  inv_fresh : forall id,
    intervalRef w = Some id \/ progressRef w = Some id \/
    flipTimer (state w) = Some id \/ is_Some (timers w !! id) ->
    (id < next_timer w)%positive;
  (** a live interval is held by one of the two refs, the slideshow is
      playing an unflipped card, and the rotation callback closes over the
      present dependencies *)
  inv_intervals : forall id d cb,
    timers w !! id = Some (Interval d cb) ->
    (intervalRef w = Some id \/ progressRef w = Some id) /\
    isAutoPlaying (state w) = true /\ isFlipped (state w) = false /\
    0 < cards_length (render w) /\
    match cb with
    | ProgressTick => True
    | CardRotation r => deps r = deps (render w)
    | FlipBack _ => False
    end;
  (** a live timeout is the flip-revert timer of the flipped card; it was
      created by a render in which nothing was remembered yet *)
  inv_timeouts : forall id d cb,
    timers w !! id = Some (Timeout d cb) ->
    flipTimer (state w) = Some id /\ isFlipped (state w) = true /\
    0 < cards_length (render w) /\ d = 5000 /\
    exists r, cb = FlipBack r /\ wasAutoPlayingBeforeFlip (r_state r) = false;
  (** nothing is remembered about an unflipped card *)
  inv_unflipped :
    isFlipped (state w) = false ->
    wasAutoPlayingBeforeFlip (state w) = false /\ flipTimer (state w) = None;
  (** the bar is empty unless the slideshow is playing an unflipped card *)
  inv_progress :
    isAutoPlaying (state w) = false \/ isFlipped (state w) = true ->
    progress (state w) = 0
}.

(** What the handlers of one event may have done to a quiescent world [w]
    before the re-render. *)
Record Handled (w w' : World) : Prop := mkHandled {
  hd_intervalRef : intervalRef w' = intervalRef w;
  hd_progressRef : progressRef w' = progressRef w;
  hd_mounted : mounted w' = mounted w;
  hd_next : (next_timer w <= next_timer w')%positive;
  hd_fresh : forall id,
    flipTimer (state w') = Some id \/ is_Some (timers w' !! id) ->
    (id < next_timer w')%positive;
  hd_intervals : forall id d cb,
    timers w' !! id = Some (Interval d cb) -> timers w !! id = Some (Interval d cb);
  hd_timeouts : forall id d cb,
    timers w' !! id = Some (Timeout d cb) ->
    flipTimer (state w') = Some id /\ isFlipped (state w') = true /\ d = 5000 /\
    (exists r, cb = FlipBack r /\ wasAutoPlayingBeforeFlip (r_state r) = false) /\
    (0 < cards_length (render w') \/ timers w !! id = Some (Timeout d cb));
  hd_unflipped :
    isFlipped (state w') = false ->
    wasAutoPlayingBeforeFlip (state w') = false /\ flipTimer (state w') = None;
  hd_progress :
    progress (state w') = progress (state w) \/ progress (state w') = 0 \/
    exists id d cb, timers w !! id = Some (Interval d cb)
}.

(** *** Vocabulary of the further properties *)

(** The condition under which the effect starts autoplay. *)
Definition autoplayOn (r : Render) : bool :=
  isAutoPlaying (r_state r) && (0 <? cards_length r) && negb (isFlipped (r_state r)).

(** The bar as a percentage. *)
Definition progress_in_range (w : World) : Prop :=
  0 <= progress (state w) <= 100.

(** While autoplay is on, the two refs hold two different live handles: the
    progress interval and the rotation interval, with the periods the present
    [tickInterval] gives. *)
Definition Armed (w : World) : Prop :=
  autoplayOn (render w) = true ->
  exists a b r,
    progressRef w = Some a /\ intervalRef w = Some b /\ a <> b /\
    timers w !! a =
      Some (Interval ((tickInterval (props w) * 1000) / 100) ProgressTick) /\
    timers w !! b =
      Some (Interval (tickInterval (props w) * 1000) (CardRotation r)).

(** What one event may do to the two numeric cells: [progress] goes to 0,
    one tick further or stays; a non-negative index stays non-negative. *)
Definition cells_step_ok (w w' : World) : Prop :=
  (progress (state w') = progress (state w) \/ progress (state w') = 0 \/
   progress (state w') = progressStep (progress (state w))) /\
  (0 <= currentCardIndex (state w) -> 0 <= currentCardIndex (state w')).

End Slideshow.

(** ** Concrete inputs *)

(** Three cards, the defaults of the component: a tick every 5 seconds,
    autoplay on. *)
Definition three_cards : @Props nat := mkProps [10%nat; 20%nat; 30%nat] 5 true.

Definition one_card : @Props nat := mkProps [10%nat] 5 true.

Definition no_cards : @Props nat := mkProps [] 5 true.

(** * Finitude: the list of activities *)

(** src/Finitude.js keeps the activities of the user in a [useState] cell
    and edits it through four handlers of its "Manage Activities" screen.
    The handlers compare and copy whole activities and read one field,
    [id]; the other fields ([name], [icon], [frequency], [description],
    [type], [financial], [display]) travel along as [fields].  Every
    handler also hands the new list to [saveUserActivities]; that write to
    [localStorage] is outside the cells modelled here. *)
Module Finitude.
Section Activities.

Context {Fields Counted Quote : Type}.

Record Activity := mkActivity { id : Z; fields : Fields }.

(** The cells the handlers write, [activities] and [editingActivity], and
    the cells of the card on the main screen: [currentCard], the index into
    the activities; [currentCardType], 'activity' or 'quote';
    [currentQuote]; [progress]. *)
Record Cells := mkCells {
  activities : list Activity;
  editingActivity : option Activity;
  currentCard : Z;
  currentCardType : string;
  currentQuote : option Quote;
  progress : Z }.

Definition ids (s : Cells) : list Z := id <$> activities s.

Definition handleActivityEdit (activity : Activity) (s : Cells) : Cells :=
  mkCells (activities s) (Some activity)
          (currentCard s) (currentCardType s) (currentQuote s) (progress s).

(** [handleSave] of the edit modal: [{...activity, name, icon, frequency,
    description, type}], with [financial] and [display] for a financial
    activity.  Every field but [id] comes from the form, here [edited]. *)
Definition handleSave (activity : Activity) (edited : Fields) : Activity :=
  mkActivity (id activity) edited.

Definition handleActivitySave (updatedActivity : Activity) (s : Cells) : Cells :=
  let updatedActivities :=
    (fun act => if id act =? id updatedActivity then updatedActivity else act)
      <$> activities s in
  mkCells updatedActivities None
          (currentCard s) (currentCardType s) (currentQuote s) (progress s).

Definition handleActivityDelete (activityId : Z) (s : Cells) : Cells :=
  let updatedActivities := filter (fun act => id act <> activityId) (activities s) in
  mkCells updatedActivities (editingActivity s)
          (currentCard s) (currentCardType s) (currentQuote s) (progress s).

(** [now] is what [Date.now()] returns; [newFields] is the literal
    [{name: "New Activity", icon: ..., frequency: 1, description: "A new
    meaningful moment"}]. *)
Definition handleAddActivity (now : Z) (newFields : Fields) (s : Cells) : Cells :=
  let newActivity := mkActivity now newFields in
  let updatedActivities := activities s ++ [newActivity] in
  mkCells updatedActivities (Some newActivity)
          (currentCard s) (currentCardType s) (currentQuote s) (progress s).

(** The render: [cardsWithCounts] has one entry per activity, in the same
    order ([withCount] adds [count], and the totals of a financial
    activity); an empty list shows "Loading Finitude..." instead of the
    views; [currentActivity] is read with no bounds check, and the main
    view dereferences it. *)
Definition cardsWithCounts (withCount : Activity -> Counted) (s : Cells) : list Counted :=
  withCount <$> activities s.

Definition showsLoading (withCount : Activity -> Counted) (s : Cells) : bool :=
  bool_decide (length (cardsWithCounts withCount s) = 0%nat).

Definition currentActivity (withCount : Activity -> Counted) (s : Cells) : option Counted :=
  if currentCard s <? 0 then None
  else cardsWithCounts withCount s !! Z.to_nat (currentCard s).

(** [getRandomQuote] of the data loader; [quotes] is the imported JSON
    array and [randomIndex] is [Math.floor(Math.random() * quotes.length)]. *)
Definition getRandomQuote (quotes : list Quote) (randomIndex : Z) : option Quote :=
  if Z.of_nat (length quotes) =? 0 then None
  else if randomIndex <? 0 then None
  else quotes !! Z.to_nat randomIndex.

(** [navigateToNextCard], which the rotation interval and the "next" button
    call; [shouldShowQuote] is [Math.random() < quoteProbability]. *)
Definition navigateToNextCard (withCount : Activity -> Counted) (quotes : list Quote)
    (shouldShowQuote : bool) (randomIndex : Z) (s : Cells) : Cells :=
  let n := Z.of_nat (length (cardsWithCounts withCount s)) in
  if 0 <? n then
    if shouldShowQuote then
      mkCells (activities s) (editingActivity s) (currentCard s)
              "quote" (getRandomQuote quotes randomIndex) 0
    else
      mkCells (activities s) (editingActivity s) (Z.rem (currentCard s + 1) n)
              "activity" (currentQuote s) 0
  else s.

(** [convertActivitiesToLegacyFormat] of the data loader, which gives the
    default activities their ids: [id: index + 1].  [legacyFields] builds
    the other fields from an activity in the new format. *)
Definition convertActivitiesToLegacyFormat {NewActivity : Type}
    (legacyFields : NewActivity -> Fields) (activities : list NewActivity)
    : list Activity :=
  imap (fun index activity => mkActivity (Z.of_nat index + 1) (legacyFields activity))
       activities.

(** The mount effect's choice:
    [userActivities && userActivities.length > 0 ? userActivities : defaults].
    [loadUserActivities] returns [null] when nothing is stored. *)
Definition activitiesToSet (userActivities : option (list Activity))
    (defaults : list Activity) : list Activity :=
  match userActivities with
  | Some l => if (0 <? Z.of_nat (length l)) then l else defaults
  | None => defaults
  end.

(** The edits of the "Manage Activities" screen as events. *)
Inductive Edit :=
  | EditActivity (activity : Activity)
  | SaveActivity (updatedActivity : Activity)
  | DeleteActivity (activityId : Z)
  | AddActivity (now : Z) (newFields : Fields).

Definition edit (s : Cells) (e : Edit) : Cells :=
  match e with
  | EditActivity a => handleActivityEdit a s
  | SaveActivity u => handleActivitySave u s
  | DeleteActivity i => handleActivityDelete i s
  | AddActivity now f => handleAddActivity now f s
  end.

End Activities.
End Finitude.

(** * The phrase adapter and the App that feeds the slideshow *)

(** src/utils/translationAdapter.js turns the phrases of the JSON file into
    cards and filters them; the App (its [useEffect]) hands the result to
    [CardCollection].  A phrase and a formatted card have the same fields;
    they differ in what [frontContent] and [backContent] hold (the JSON
    object, the JSX built from it), the parameter [Content]. *)
Module Translation.
Section Phrases.

Context {Metadata : Type}.

Record Phrase {Content : Type} := mkPhrase {
  id : string;
  type : string;
  category : string;
  frontContent : Content;
  backContent : Content;
  metadata : Metadata;
  language1 : string;
  language2 : string }.
Arguments Phrase : clear implicits.

(** The [filters] object; a key that is not given reads [undefined]. *)
Record Filters := mkFilters {
  filters_category : option string;
  filters_language1 : option string;
  filters_language2 : option string }.

(** [filters = {}] *)
Definition noFilters : Filters := mkFilters None None None.

(** Truthiness of a string or [undefined]: the empty string is falsy. *)
Definition truthy (v : option string) : bool :=
  match v with
  | Some s => negb (String.eqb s "")
  | None => false
  end.

(** [wanted && value !== wanted] *)
Definition rejects (wanted : option string) (value : string) : bool :=
  truthy wanted && negb (bool_decide (Some value = wanted)).

(** The callback of [phrases.filter] in [filterVeganPhrases]. *)
Definition passes {Content} (filters : Filters) (phrase : Phrase Content) : bool :=
  if rejects (filters_category filters) (category phrase) then false
  else if rejects (filters_language1 filters) (language1 phrase) then false
  else if rejects (filters_language2 filters) (language2 phrase) then false
  else true.

Definition filterVeganPhrases {Content} (phrases : list (Phrase Content))
    (filters : Filters) : list (Phrase Content) :=
  filter (fun phrase => passes filters phrase = true) phrases.

(** [[...new Set(xs)]]: the elements in the order of their first
    occurrence. *)
Definition setOf (xs : list string) : list string :=
  reverse (remove_dups (reverse xs)).

(** [xs.sort()] on strings: ascending by code unit, which on [string] is
    [String.le] (the orders agree below U+E000). *)
Definition sort (xs : list string) : list string := merge_sort String.le xs.

Definition getAvailableLanguages {Content} (phrases : list (Phrase Content))
    (position : Z) : list string :=
  let languageKey := if position =? 1 then language1 else language2 in
  let languages := setOf (languageKey <$> phrases) in
  sort languages.

Definition getAvailableCategories {Content} (phrases : list (Phrase Content))
    : list string :=
  let categories := setOf (category <$> phrases) in
  sort categories.

(** [formatVeganPhrasesForDisplay]: [front] and [back] build the JSX of the
    two faces from the options and the phrase. *)
Record Options := mkOptions { showLanguageLabels : bool; addFlagIcons : bool }.

(** [options = {}], with the defaults of the destructuring. *)
Definition noOptions : Options := mkOptions true false.

Section Format.
Context {Raw JSX : Type} (front back : Options -> Phrase Raw -> JSX).

Definition formatVeganPhrasesForDisplay (phrases : list (Phrase Raw))
    (options : Options) : list (Phrase JSX) :=
  (fun phrase =>
     mkPhrase JSX (id phrase) (type phrase) (category phrase)
              (front options phrase) (back options phrase)
              (metadata phrase) (language1 phrase) (language2 phrase))
  <$> phrases.

(** [veganPhrases] is the imported JSON array. *)
Definition loadFormattedVeganPhrases (veganPhrases : list (Phrase Raw))
    (options : Options) (filters : Filters) : list (Phrase JSX) :=
  let phrases := veganPhrases in
  let filteredPhrases := filterVeganPhrases phrases filters in
  formatVeganPhrasesForDisplay filteredPhrases options.

(** The App's effect in 'vegan' mode: the cards for the two selections (the
    empty string is "All"), and the options of the two dropdowns. *)
Definition App_cards (veganPhrases : list (Phrase Raw))
    (selectedCategory selectedLanguage : string) : list (Phrase JSX) :=
  loadFormattedVeganPhrases veganPhrases (mkOptions true true)
    (mkFilters (Some selectedCategory) None (Some selectedLanguage)).

Definition App_categories (veganPhrases : list (Phrase Raw)) : list string :=
  getAvailableCategories (loadFormattedVeganPhrases veganPhrases noOptions noFilters).

Definition App_languages (veganPhrases : list (Phrase Raw)) : list string :=
  getAvailableLanguages (loadFormattedVeganPhrases veganPhrases noOptions noFilters) 2.

End Format.

(** [filterCardsByCategory] of the card loader. *)
Definition filterCardsByCategory {Content} (cards : list (Phrase Content))
    (category0 : option string) : list (Phrase Content) :=
  if negb (truthy category0) then cards
  else filter (fun card => Some (category card) = category0) cards.

End Phrases.
End Translation.

(** * The age of the user *)

(** The profile's [demographics] as src/utils/calculations.js and the
    settings screen of src/Finitude.js read and write them.  [Today] is
    what [new Date()] shows: [getFullYear()], and [getMonth()], which counts
    from 0.  A profile without [birth_month] has [None] there; the other
    keys of [demographics] and of the profile are [others] and [rest]. *)
Module Profile.
Section Age.

Context {Others Rest : Type}.

Record Demographics := mkDemographics {
  age : Z;
  birth_year : Z;
  birth_month : option Z;
  others : Others }.

Record Profile := mkProfile { demographics : Demographics; rest : Rest }.

Record Today := mkToday { getFullYear : Z; getMonth : Z }.

(** [currentMonth < profile.demographics.birth_month]; a comparison with
    [undefined] is false. *)
Definition beforeBirthMonth (currentMonth : Z) (birth_month : option Z) : bool :=
  match birth_month with
  | Some m => currentMonth <? m
  | None => false
  end.

(** [getCurrentAge] of calculations.js *)
Definition getCurrentAge (today : Today) (profile : Profile) : Z :=
  let currentYear := getFullYear today in
  let currentMonth := getMonth today + 1 in
  let age := currentYear - birth_year (demographics profile) in
  if beforeBirthMonth currentMonth (birth_month (demographics profile))
  then age - 1 else age.

(** [getCurrentAge] of the data loader, which has no month. *)
Definition getCurrentAge_dataLoader (today : Today) (profile : Profile) : Z :=
  let currentYear := getFullYear today in
  currentYear - birth_year (demographics profile).

Definition updateProfileAge (today : Today) (profile : Profile) : Profile :=
  mkProfile
    (mkDemographics (getCurrentAge today profile)
       (birth_year (demographics profile)) (birth_month (demographics profile))
       (others (demographics profile)))
    (rest profile).

(** [handleAgeChange] of Finitude.js, on the [userProfile] cell, which is
    [null] until the mount effect has run. *)
Definition handleAgeChange (today : Today) (value : Z)
    (userProfile : option Profile) : option Profile :=
  match userProfile with
  | Some userProfile =>
      let currentYear := getFullYear today in
      let birthYear := currentYear - value in
      Some (mkProfile
              (mkDemographics value birthYear
                 (birth_month (demographics userProfile))
                 (others (demographics userProfile)))
              (rest userProfile))
  | None => None
  end.

(** [const currentAge = userProfile?.demographics?.age || 57] *)
Definition currentAge (userProfile : option Profile) : Z :=
  match userProfile with
  | Some userProfile =>
      if age (demographics userProfile) =? 0 then 57
      else age (demographics userProfile)
  | None => 57
  end.

End Age.
End Profile.

(** ** Concrete inputs of the other modules *)

(** Two activities, the second one on the main screen; the fields are just
    the name, and so is a quote. *)
Definition two_activities : @Finitude.Cells string string :=
  Finitude.mkCells [Finitude.mkActivity 1 "Sunsets"; Finitude.mkActivity 2 "Full moons"]
                   None 1 "activity" None 0.

(** A profile born in June 1968, the other keys left out. *)
Definition born_in_june : @Profile.Profile unit unit :=
  Profile.mkProfile (Profile.mkDemographics 57 1968 (Some 6) tt) tt.

(** * Properties *)

Ltac wsimpl :=
  cbn [props state intervalRef progressRef timers next_timer mounted
       r_props r_state currentCardIndex isAutoPlaying progress isFlipped
       touchStart touchEnd flipTimer wasAutoPlayingBeforeFlip
       resetProgress render set_mounted set_props] in *.

Ltac close_handled :=
  first [ reflexivity | assumption | symmetry; assumption
        | left; reflexivity | right; left; reflexivity | right; reflexivity ].

Section Properties.

Context {Card : Type}.

Implicit Types (w : @World Card) (r : @Render Card) (p : @Props Card).
Implicit Types (e : @Event Card) (es : list (@Event Card)).
Implicit Types (m : gmap timer_id (@Timer Card)) (t : @Timer Card).
Implicit Types (cb : @Callback Card).


(** ** Reading a world after the primitives *)

Lemma without_Some h m id t :
  without h m !! id = Some t <-> h <> Some id /\ m !! id = Some t.
Proof.
  destruct h as [j|]; simpl.
  - rewrite lookup_delete_Some. split; intros [? ?]; split; congruence.
  - split; [intros ?; split; congruence | intros [_ ?]; assumption].
Qed.

Lemma without_None h m id :
  h = Some id -> without h m !! id = None.
Proof. intros ->. simpl. apply lookup_delete_eq. Qed.

Lemma stopAutoPlay_eq w :
  stopAutoPlay w =
  mkWorld (props w) (resetProgress (state w)) (intervalRef w) (progressRef w)
          (without (progressRef w) (without (intervalRef w) (timers w)))
          (next_timer w) (mounted w).
Proof. destruct w as [p s [i|] [q|] t n m]; reflexivity. Qed.

Lemma startAutoPlay_eq r w :
  startAutoPlay r w =
  mkWorld (props w) (resetProgress (state w))
          (Some (Pos.succ (next_timer w))) (Some (next_timer w))
          (<[Pos.succ (next_timer w) :=
               Interval (tickInterval (r_props r) * 1000) (CardRotation r)]>
             (<[next_timer w :=
                  Interval ((tickInterval (r_props r) * 1000) / 100) ProgressTick]>
                (without (progressRef w) (without (intervalRef w) (timers w)))))
          (Pos.succ (Pos.succ (next_timer w))) (mounted w).
Proof. destruct w as [p s [i|] [q|] t n m]; reflexivity. Qed.

Lemma autoplayCleanup_eq r w :
  autoplayCleanup r w =
  mkWorld (props w) (resetProgress (state w)) (intervalRef w) (progressRef w)
          (without (flipTimer (r_state r))
             (without (progressRef w) (without (intervalRef w) (timers w))))
          (next_timer w) (mounted w).
Proof.
  unfold autoplayCleanup. rewrite stopAutoPlay_eq.
  destruct (flipTimer (r_state r)); reflexivity.
Qed.

(** A re-render touches no state cell but [progress], which the effect
    zeroes when it runs. *)
Lemma commit_state w :
  state (commit w) = state w \/ state (commit w) = resetProgress (state w).
Proof.
  unfold commit. case_bool_decide; [left; reflexivity | right].
  unfold autoplayEffect. rewrite autoplayCleanup_eq.
  destruct (_ && _ && _); [rewrite startAutoPlay_eq | rewrite stopAutoPlay_eq];
    reflexivity.
Qed.

Lemma commit_props w : props (commit w) = props w.
Proof.
  unfold commit. case_bool_decide; [reflexivity |].
  unfold autoplayEffect. rewrite autoplayCleanup_eq.
  destruct (_ && _ && _); [rewrite startAutoPlay_eq | rewrite stopAutoPlay_eq];
    reflexivity.
Qed.

Lemma commit_deps_render w : deps (render (commit w)) = deps (render w).
Proof.
  unfold render. rewrite commit_props.
  destruct (commit_state w) as [-> | ->]; reflexivity.
Qed.

(** After a re-render the installed effect belongs to the current
    dependencies. *)
Lemma commit_mounted w : deps (mounted (commit w)) = deps (render (commit w)).
Proof.
  rewrite commit_deps_render. unfold commit.
  case_bool_decide; [assumption |].
  unfold autoplayEffect. rewrite autoplayCleanup_eq.
  destruct (_ && _ && _); [rewrite startAutoPlay_eq | rewrite stopAutoPlay_eq];
    reflexivity.
Qed.

Lemma commit_id w : deps (mounted w) = deps (render w) -> commit w = w.
Proof. intros H. unfold commit. rewrite bool_decide_eq_true_2; auto. Qed.


(** ** The invariant of quiescent worlds *)

Lemma deps_inj r1 r2 :
  deps r1 = deps r2 ->
  isAutoPlaying (r_state r1) = isAutoPlaying (r_state r2) /\
  currentCardIndex (r_state r1) = currentCardIndex (r_state r2) /\
  cards_length r1 = cards_length r2 /\
  tickInterval (r_props r1) = tickInterval (r_props r2) /\
  isFlipped (r_state r1) = isFlipped (r_state r2) /\
  flipTimer (r_state r1) = flipTimer (r_state r2) /\
  wasAutoPlayingBeforeFlip (r_state r1) = wasAutoPlayingBeforeFlip (r_state r2).
Proof. unfold deps. intros H. injection H. intuition. Qed.

(** The re-render turns a handled world into a quiescent one. *)
Lemma commit_Inv w w' : Inv w -> Handled w w' -> Inv (commit w').
Proof.
  intros I H. unfold commit. case_bool_decide as Hd.
  - (* no dependency changed *)
    assert (Hd' : deps (render w') = deps (render w)).
    { rewrite <- Hd, (hd_mounted _ _ H). apply (inv_deps _ I). }
    apply deps_inj in Hd'. destruct Hd' as (Hap & Hidx & Hlen & Htick & Hfl & Hft & Hwas).
    unfold render in Hap, Hidx, Hfl, Hft, Hwas; simpl in Hap, Hidx, Hfl, Hft, Hwas.
    split.
    + assumption.
    + intros id [Hi | [Hi | Hi]].
      * rewrite (hd_intervalRef _ _ H) in Hi.
        eapply Pos.lt_le_trans; [apply (inv_fresh _ I); eauto | apply (hd_next _ _ H)].
      * rewrite (hd_progressRef _ _ H) in Hi.
        eapply Pos.lt_le_trans; [apply (inv_fresh _ I); eauto | apply (hd_next _ _ H)].
      * apply (hd_fresh _ _ H). assumption.
    + intros id d cb Hi. apply (hd_intervals _ _ H) in Hi.
      destruct (inv_intervals _ I _ _ _ Hi) as (Hr & Hp & Hf & Hn & Hc).
      rewrite (hd_intervalRef _ _ H), (hd_progressRef _ _ H), Hap, Hfl, Hlen.
      repeat split; try assumption.
      destruct cb as [| r | r]; [exact Hc | | exact Hc].
      rewrite Hc, <- (inv_deps _ I), <- (hd_mounted _ _ H).
      assumption.
    + intros id d cb Hi.
      destruct (hd_timeouts _ _ H _ _ _ Hi) as (Hf & Hfl' & Hd5 & Hr & Hn).
      repeat split; try assumption.
      destruct Hn as [Hn | Hn]; [assumption |].
      rewrite Hlen. apply (inv_timeouts _ I _ _ _ Hn).
    + apply (hd_unflipped _ _ H).
    + intros Hq. rewrite Hap, Hfl in Hq.
      destruct (hd_progress _ _ H) as [Hp | [Hp | (id & d & cb & Hp)]].
      * rewrite Hp. apply (inv_progress _ I Hq).
      * assumption.
      * destruct (inv_intervals _ I _ _ _ Hp) as (_ & Ha & Hf & _).
        destruct Hq; congruence.
  - (* a dependency changed: cleanup of the installed effect, then the
       effect of the new render *)
    assert (Hm : flipTimer (r_state (mounted w')) = flipTimer (state w)).
    { rewrite (hd_mounted _ _ H).
      apply (deps_inj _ _ (inv_deps _ I)). }
    set (tc := without (flipTimer (r_state (mounted w')))
                 (without (progressRef w') (without (intervalRef w') (timers w')))).
    assert (Hno : forall id d cb, tc !! id <> Some (Interval d cb)).
    { intros id d cb Hi. unfold tc in Hi.
      apply without_Some in Hi as (_ & Hi). apply without_Some in Hi as (Hp & Hi).
      apply without_Some in Hi as (Hr & Hi).
      apply (hd_intervals _ _ H) in Hi.
      destruct (inv_intervals _ I _ _ _ Hi) as ([Hx | Hx] & _).
      - rewrite (hd_intervalRef _ _ H) in Hr. contradiction.
      - rewrite (hd_progressRef _ _ H) in Hp. contradiction. }
    assert (Hto : forall id d cb, tc !! id = Some (Timeout d cb) ->
              flipTimer (state w') = Some id /\ isFlipped (state w') = true /\
              0 < cards_length (render w') /\ d = 5000 /\
              exists r, cb = FlipBack r /\ wasAutoPlayingBeforeFlip (r_state r) = false).
    { intros id d cb Hi. unfold tc in Hi.
      apply without_Some in Hi as (Hf & Hi). apply without_Some in Hi as (_ & Hi).
      apply without_Some in Hi as (_ & Hi).
      destruct (hd_timeouts _ _ H _ _ _ Hi) as (Hf' & Hfl' & Hd5 & Hr & Hn).
      repeat split; try assumption.
      destruct Hn as [Hn | Hn]; [assumption | exfalso].
      apply Hf. rewrite Hm. apply (inv_timeouts _ I _ _ _ Hn). }
    assert (Hsub : forall id, is_Some (tc !! id) -> is_Some (timers w' !! id)).
    { intros id [t Hi]. unfold tc in Hi.
      apply without_Some in Hi as (_ & Hi). apply without_Some in Hi as (_ & Hi).
      apply without_Some in Hi as (_ & Hi). eauto. }
    unfold autoplayEffect. rewrite autoplayCleanup_eq. fold tc.
    destruct (isAutoPlaying (r_state (render w')) && (0 <? cards_length (render w'))
              && negb (isFlipped (r_state (render w')))) eqn:Hplay.
    + rewrite startAutoPlay_eq.
      apply andb_prop in Hplay as (Hplay & Hnf). apply andb_prop in Hplay as (Hap & Hn).
      apply Z.ltb_lt in Hn. apply negb_true_iff in Hnf.
      assert (Hlt : forall id, is_Some (tc !! id) -> (id < next_timer w')%positive).
      { intros id Hi. apply (hd_fresh _ _ H). right. apply Hsub, Hi. }
      split; wsimpl.
      * reflexivity.
      * intros id [Hi | [Hi | [Hi | Hi]]].
        -- injection Hi as <-. lia.
        -- injection Hi as <-. lia.
        -- pose proof (hd_fresh _ _ H id (or_introl Hi)). lia.
        -- destruct Hi as [t Hi].
           apply lookup_insert_Some in Hi as [[<- _] | [_ Hi]]; [lia |].
           apply lookup_insert_Some in Hi as [[<- _] | [_ Hi]]; [lia |].
           apply without_Some in Hi as (_ & Hi). apply without_Some in Hi as (_ & Hi).
           pose proof (Hlt id (mk_is_Some _ _ Hi)). lia.
      * intros id d cb Hi.
        apply lookup_insert_Some in Hi as [[<- Hi] | [_ Hi]].
        { injection Hi as <- <-. repeat split; auto. }
        apply lookup_insert_Some in Hi as [[<- Hi] | [_ Hi]].
        { injection Hi as <- <-. repeat split; auto. }
        apply without_Some in Hi as (_ & Hi). apply without_Some in Hi as (_ & Hi).
        exfalso. exact (Hno _ _ _ Hi).
      * intros id d cb Hi.
        apply lookup_insert_Some in Hi as [[_ Hi] | [_ Hi]]; [discriminate |].
        apply lookup_insert_Some in Hi as [[_ Hi] | [_ Hi]]; [discriminate |].
        apply without_Some in Hi as (_ & Hi). apply without_Some in Hi as (_ & Hi).
        exact (Hto _ _ _ Hi).
      * apply (hd_unflipped _ _ H).
      * reflexivity.
    + rewrite stopAutoPlay_eq.
      split; wsimpl.
      * reflexivity.
      * intros id [Hi | [Hi | [Hi | Hi]]].
        -- rewrite (hd_intervalRef _ _ H) in Hi.
           eapply Pos.lt_le_trans; [apply (inv_fresh _ I); eauto | apply (hd_next _ _ H)].
        -- rewrite (hd_progressRef _ _ H) in Hi.
           eapply Pos.lt_le_trans; [apply (inv_fresh _ I); eauto | apply (hd_next _ _ H)].
        -- apply (hd_fresh _ _ H). left. assumption.
        -- destruct Hi as [t Hi].
           apply without_Some in Hi as (_ & Hi). apply without_Some in Hi as (_ & Hi).
           apply (hd_fresh _ _ H). right. apply Hsub. eauto.
      * intros id d cb Hi.
        apply without_Some in Hi as (_ & Hi). apply without_Some in Hi as (_ & Hi).
        exfalso. exact (Hno _ _ _ Hi).
      * intros id d cb Hi.
        apply without_Some in Hi as (_ & Hi). apply without_Some in Hi as (_ & Hi).
        exact (Hto _ _ _ Hi).
      * apply (hd_unflipped _ _ H).
      * reflexivity.
Qed.




(** ** What each handler does to a quiescent world *)

(** Handlers that write state cells only, leave the flip cells alone and
    move [progress] to 0 if at all (the progress tick needs a live interval). *)
Lemma Handled_state_only w w' :
  Inv w ->
  intervalRef w' = intervalRef w -> progressRef w' = progressRef w ->
  mounted w' = mounted w -> next_timer w' = next_timer w ->
  timers w' = timers w ->
  flipTimer (state w') = flipTimer (state w) ->
  isFlipped (state w') = isFlipped (state w) ->
  wasAutoPlayingBeforeFlip (state w') = wasAutoPlayingBeforeFlip (state w) ->
  (progress (state w') = progress (state w) \/ progress (state w') = 0 \/
   exists id d cb, timers w !! id = Some (Interval d cb)) ->
  Handled w w'.
Proof.
  intros I Hi Hp Hm Hn Ht Hft Hfl Hwas Hpr.
  split; try assumption.
  - rewrite Hn. reflexivity.
  - intros id Hid. rewrite Hn, Hft, Ht in *. apply (inv_fresh _ I). tauto.
  - intros id d cb Hid. rewrite Ht in Hid. assumption.
  - intros id d cb Hid. rewrite Ht in Hid.
    destruct (inv_timeouts _ I _ _ _ Hid) as (H1 & H2 & _ & H3 & H4).
    rewrite Hft, Hfl. auto 6.
  - rewrite Hft, Hfl, Hwas. apply (inv_unflipped _ I).
Qed.

(** Handlers that end a flip: the cell [flipTimer] is cleared both in the
    browser and in the state. *)
Lemma Handled_unflip w w' :
  Inv w ->
  intervalRef w' = intervalRef w -> progressRef w' = progressRef w ->
  mounted w' = mounted w -> next_timer w' = next_timer w ->
  timers w' = without (flipTimer (state w)) (timers w) ->
  flipTimer (state w') = None ->
  wasAutoPlayingBeforeFlip (state w') = false ->
  (progress (state w') = progress (state w) \/ progress (state w') = 0) ->
  Handled w w'.
Proof.
  intros I Hi Hp Hm Hn Ht Hft Hwas Hpr.
  split; try assumption.
  - rewrite Hn. reflexivity.
  - intros id [Hid | [t Hid]]; [congruence |].
    rewrite Ht in Hid. apply without_Some in Hid as (_ & Hid).
    rewrite Hn. apply (inv_fresh _ I). eauto.
  - intros id d cb Hid. rewrite Ht in Hid.
    apply without_Some in Hid as (_ & Hid). assumption.
  - intros id d cb Hid. rewrite Ht in Hid.
    apply without_Some in Hid as (Hne & Hid).
    destruct (inv_timeouts _ I _ _ _ Hid) as (H1 & _). congruence.
  - auto.
  - tauto.
Qed.

(** Turning the card over: one fresh timeout, remembered in [flipTimer]. *)
Lemma Handled_flip w w' :
  Inv w ->
  isFlipped (state w) = false ->
  0 < cards_length (render w) ->
  props w' = props w ->
  intervalRef w' = intervalRef w -> progressRef w' = progressRef w ->
  mounted w' = mounted w -> next_timer w' = Pos.succ (next_timer w) ->
  timers w' = <[next_timer w := Timeout 5000 (FlipBack (render w))]> (timers w) ->
  flipTimer (state w') = Some (next_timer w) ->
  isFlipped (state w') = true ->
  progress (state w') = progress (state w) ->
  Handled w w'.
Proof.
  intros I Hfl0 Hlen Hpp Hi Hp Hm Hn Ht Hft Hfl Hpr.
  split; try assumption.
  - rewrite Hn. lia.
  - intros id [Hid | [t Hid]].
    + rewrite Hft in Hid. injection Hid as <-. rewrite Hn. lia.
    + rewrite Ht in Hid. rewrite Hn.
      apply lookup_insert_Some in Hid as [[<- _] | [_ Hid]]; [lia |].
      pose proof (inv_fresh _ I id) as Hlt. 
      assert ((id < next_timer w)%positive) by (apply Hlt; eauto). lia.
  - intros id d cb Hid. rewrite Ht in Hid.
    apply lookup_insert_Some in Hid as [[_ Hid] | [_ Hid]]; [discriminate | assumption].
  - intros id d cb Hid. rewrite Ht in Hid.
    apply lookup_insert_Some in Hid as [[<- Hid] | [_ Hid]].
    + injection Hid as <- <-. repeat split; auto.
      * exists (render w). split; [reflexivity |].
        apply (inv_unflipped _ I Hfl0).
      * left. unfold cards_length, render in *. rewrite Hpp. assumption.
    + destruct (inv_timeouts _ I _ _ _ Hid) as (_ & Hc & _). congruence.
  - intros Hc. congruence.
  - auto.
Qed.

Lemma Handled_refl w : Inv w -> Handled w w.
Proof. intros I. apply Handled_state_only; auto. Qed.

Lemma nextCard_Handled w r :
  Inv w -> deps r = deps (render w) -> Handled w (nextCard r w).
Proof.
  intros I Hr. apply deps_inj in Hr as (_ & _ & _ & _ & Hfl & Hft & Hwas).
  wsimpl. unfold nextCard, resetFlipOnNavigate.
  destruct (isFlipped (r_state r)) eqn:Ef,
    (wasAutoPlayingBeforeFlip (r_state r)) eqn:Ew, (0 <? cards_length r);
    rewrite ?Hft;
    try (apply Handled_state_only; auto; close_handled);
    apply Handled_unflip; auto;
    destruct (flipTimer (state w)); close_handled.
Qed.

Lemma prevCard_Handled w r :
  Inv w -> deps r = deps (render w) -> Handled w (prevCard r w).
Proof.
  intros I Hr. apply deps_inj in Hr as (_ & _ & _ & _ & Hfl & Hft & Hwas).
  wsimpl. unfold prevCard, resetFlipOnNavigate.
  destruct (isFlipped (r_state r)) eqn:Ef,
    (wasAutoPlayingBeforeFlip (r_state r)) eqn:Ew, (0 <? cards_length r);
    rewrite ?Hft;
    try (apply Handled_state_only; auto; close_handled);
    apply Handled_unflip; auto;
    destruct (flipTimer (state w)); close_handled.
Qed.


Lemma controlsRendered_length r :
  controlsRendered r = true <-> 0 < cards_length r.
Proof.
  unfold controlsRendered, cards_length.
  rewrite negb_true_iff, Z.eqb_neq. lia.
Qed.

Lemma handleCardClick_Handled w :
  Inv w -> controlsRendered (render w) = true ->
  Handled w (handleCardClick (render w) w).
Proof.
  intros I Hc. apply controlsRendered_length in Hc.
  unfold handleCardClick. wsimpl.
  destruct (isFlipped (state w)) eqn:Ef.
  - apply Handled_unflip; auto;
      destruct (wasAutoPlayingBeforeFlip (state w)), (flipTimer (state w));
      close_handled.
  - apply Handled_flip; auto;
      destruct (isAutoPlaying (state w)); reflexivity.
Qed.

Lemma handleTouchEnd_Handled w :
  Inv w -> Handled w (handleTouchEnd (render w) w).
Proof.
  intros I. unfold handleTouchEnd.
  destruct (_ || _); [apply Handled_refl, I |].
  destruct (50 <? _); [apply nextCard_Handled; auto |].
  destruct (_ <? -50); [apply prevCard_Handled; auto |].
  apply Handled_refl, I.
Qed.

Lemma fireTimer_Handled w id : Inv w -> Handled w (fireTimer id w).
Proof.
  intros I. unfold fireTimer.
  destruct (timers w !! id) as [[d cb | d cb] |] eqn:Et.
  - destruct (inv_intervals _ I _ _ _ Et) as (_ & _ & _ & _ & Hc).
    destruct cb as [| r | r]; simpl.
    + apply Handled_state_only; auto. right; right. eauto.
    + apply nextCard_Handled; auto.
    + contradiction.
  - destruct (inv_timeouts _ I _ _ _ Et) as (Hft & _ & _ & _ & r & -> & Hw).
    simpl. unfold flipBack. rewrite Hw.
    apply Handled_unflip; auto. rewrite Hft. reflexivity.
  - apply Handled_refl, I.
Qed.

Lemma dispatch_Handled w e : Inv w -> Handled w (dispatch e w).
Proof.
  intros I. unfold dispatch.
  destruct e; try (destruct (controlsRendered (render w)) eqn:Hc;
                   [| apply Handled_refl, I]).
  - apply nextCard_Handled; auto.
  - apply prevCard_Handled; auto.
  - apply handleCardClick_Handled; auto.
  - apply Handled_state_only; auto.
  - apply Handled_state_only; auto.
  - apply Handled_state_only; auto.
  - apply handleTouchEnd_Handled; auto.
  - apply fireTimer_Handled; auto.
  - apply Handled_state_only; auto.
Qed.

Theorem step_Inv w e : Inv w -> Inv (step w e).
Proof.
  intros I. unfold step. eapply commit_Inv; [exact I | apply dispatch_Handled, I].
Qed.


Lemma mount_Inv p : Inv (mount p).
Proof.
  unfold mount, autoplayEffect.
  destruct (_ && _ && _) eqn:Hplay.
  - apply andb_prop in Hplay as (Hplay & _). apply andb_prop in Hplay as (Hap & Hn).
    apply Z.ltb_lt in Hn. wsimpl.
    rewrite startAutoPlay_eq. split; wsimpl; unfold without.
    + reflexivity.
    + intros id [Hi | [Hi | [Hi | [t Hi]]]]; try discriminate.
      * injection Hi as <-. lia.
      * injection Hi as <-. lia.
      * apply lookup_insert_Some in Hi as [[<- _] | [_ Hi]]; [lia |].
        apply lookup_insert_Some in Hi as [[<- _] | [_ Hi]]; [lia |].
        rewrite lookup_empty in Hi. discriminate.
    + intros id d cb Hi.
      apply lookup_insert_Some in Hi as [[<- Hi] | [_ Hi]].
      { injection Hi as <- <-. repeat split; auto. }
      apply lookup_insert_Some in Hi as [[<- Hi] | [_ Hi]].
      { injection Hi as <- <-. repeat split; auto. }
      rewrite lookup_empty in Hi. discriminate.
    + intros id d cb Hi.
      apply lookup_insert_Some in Hi as [[_ Hi] | [_ Hi]]; [discriminate |].
      apply lookup_insert_Some in Hi as [[_ Hi] | [_ Hi]]; [discriminate |].
      rewrite lookup_empty in Hi. discriminate.
    + auto.
    + reflexivity.
  - rewrite stopAutoPlay_eq. split; wsimpl; unfold without.
    + reflexivity.
    + intros id [Hi | [Hi | [Hi | [t Hi]]]]; discriminate.
    + intros id d cb Hi. rewrite lookup_empty in Hi. discriminate.
    + intros id d cb Hi. rewrite lookup_empty in Hi. discriminate.
    + auto.
    + reflexivity.
Qed.

Lemma run_Inv w es : Inv w -> Inv (run w es).
Proof.
  revert w. induction es as [| e es IH]; intros w I; simpl; [exact I |].
  apply IH, step_Inv, I.
Qed.

Lemma reachable_Inv w : reachable w -> Inv w.
Proof. intros (p & es & ->). apply run_Inv, mount_Inv. Qed.

Lemma reachable_step w e : reachable w -> reachable (step w e).
Proof.
  intros (p & es & ->). exists p, (es ++ [e]).
  unfold run. rewrite foldl_app. reflexivity.
Qed.


(** ** Navigation *)

Lemma commit_index w :
  currentCardIndex (state (commit w)) = currentCardIndex (state w).
Proof. destruct (commit_state w) as [-> | ->]; reflexivity. Qed.

Lemma commit_isFlipped w : isFlipped (state (commit w)) = isFlipped (state w).
Proof. destruct (commit_state w) as [-> | ->]; reflexivity. Qed.

Lemma commit_isAutoPlaying w :
  isAutoPlaying (state (commit w)) = isAutoPlaying (state w).
Proof. destruct (commit_state w) as [-> | ->]; reflexivity. Qed.

Lemma commit_flipTimer w : flipTimer (state (commit w)) = flipTimer (state w).
Proof. destruct (commit_state w) as [-> | ->]; reflexivity. Qed.

Lemma commit_was w :
  wasAutoPlayingBeforeFlip (state (commit w)) = wasAutoPlayingBeforeFlip (state w).
Proof. destruct (commit_state w) as [-> | ->]; reflexivity. Qed.

Lemma commit_touch w :
  touchStart (state (commit w)) = touchStart (state w) /\
  touchEnd (state (commit w)) = touchEnd (state w).
Proof. destruct (commit_state w) as [-> | ->]; split; reflexivity. Qed.

Lemma commit_progress_zero w :
  progress (state w) = 0 -> progress (state (commit w)) = 0.
Proof. intros H. destruct (commit_state w) as [-> | ->]; [exact H | reflexivity]. Qed.

Lemma cards_length_props w w' :
  props w' = props w -> cards_length (render w') = cards_length (render w).
Proof. intros H. unfold cards_length, render. cbn [r_props]. rewrite H. reflexivity. Qed.

Lemma commit_cards_length w :
  cards_length (render (commit w)) = cards_length (render w).
Proof. apply cards_length_props, commit_props. Qed.

(** The four facts about one call of [nextCard] / [prevCard] on a non-empty
    sequence that the navigation claims rest on. *)
Lemma nextCard_index r w :
  0 < cards_length r ->
  currentCardIndex (state (nextCard r w)) =
    Z.rem (currentCardIndex (state w) + 1) (cards_length r) /\
  progress (state (nextCard r w)) = 0 /\
  props (nextCard r w) = props w.
Proof.
  intros Hn. apply Z.ltb_lt in Hn. unfold nextCard, resetFlipOnNavigate. rewrite Hn.
  destruct (isFlipped (r_state r)), (wasAutoPlayingBeforeFlip (r_state r)),
    (flipTimer (r_state r)); repeat split; reflexivity.
Qed.

Lemma prevCard_index r w :
  0 < cards_length r ->
  currentCardIndex (state (prevCard r w)) =
    Z.rem (currentCardIndex (state w) - 1 + cards_length r) (cards_length r) /\
  progress (state (prevCard r w)) = 0 /\
  props (prevCard r w) = props w.
Proof.
  intros Hn. apply Z.ltb_lt in Hn. unfold prevCard, resetFlipOnNavigate. rewrite Hn.
  destruct (isFlipped (r_state r)), (wasAutoPlayingBeforeFlip (r_state r)),
    (flipTimer (r_state r)); repeat split; reflexivity.
Qed.

Lemma step_ClickNext w :
  0 < cards_length (render w) ->
  step w ClickNext = commit (nextCard (render w) w).
Proof.
  intros Hn. unfold step, dispatch.
  apply controlsRendered_length in Hn. rewrite Hn. reflexivity.
Qed.

Lemma step_ClickPrev w :
  0 < cards_length (render w) ->
  step w ClickPrev = commit (prevCard (render w) w).
Proof.
  intros Hn. unfold step, dispatch.
  apply controlsRendered_length in Hn. rewrite Hn. reflexivity.
Qed.

Lemma step_ClickNext_index w :
  0 < cards_length (render w) ->
  currentCardIndex (state (step w ClickNext)) =
    Z.rem (currentCardIndex (state w) + 1) (cards_length (render w)) /\
  cards_length (render (step w ClickNext)) = cards_length (render w).
Proof.
  intros Hn. rewrite step_ClickNext by assumption.
  rewrite commit_index, commit_cards_length.
  destruct (nextCard_index (render w) w Hn) as (-> & _ & Hp).
  split; [reflexivity |]. apply cards_length_props, Hp.
Qed.

Lemma step_ClickPrev_index w :
  0 < cards_length (render w) ->
  currentCardIndex (state (step w ClickPrev)) =
    Z.rem (currentCardIndex (state w) - 1 + cards_length (render w))
          (cards_length (render w)) /\
  cards_length (render (step w ClickPrev)) = cards_length (render w).
Proof.
  intros Hn. rewrite step_ClickPrev by assumption.
  rewrite commit_index, commit_cards_length.
  destruct (prevCard_index (render w) w Hn) as (-> & _ & Hp).
  split; [reflexivity |]. apply cards_length_props, Hp.
Qed.

(** [k] presses of "next" from an index in range: the index moves [k] places
    forward modulo the number of cards. *)
Lemma run_next_index (k : nat) : forall w,
  0 < cards_length (render w) ->
  0 <= currentCardIndex (state w) < cards_length (render w) ->
  currentCardIndex (state (run w (replicate k ClickNext))) =
    (currentCardIndex (state w) + Z.of_nat k) mod cards_length (render w) /\
  cards_length (render (run w (replicate k ClickNext))) = cards_length (render w).
Proof.
  induction k as [| k IH]; intros w Hn Hi.
  - simpl. rewrite Z.add_0_r, Z.mod_small by assumption. split; reflexivity.
  - simpl. destruct (step_ClickNext_index w Hn) as (Hidx & Hlen).
    assert (Hr : 0 <= currentCardIndex (state (step w ClickNext))
                 < cards_length (render (step w ClickNext))).
    { rewrite Hidx, Hlen. rewrite Z.rem_mod_nonneg by lia.
      apply Z.mod_pos_bound. assumption. }
    destruct (IH (step w ClickNext)) as (IH1 & IH2); [rewrite Hlen; assumption | exact Hr |].
    unfold run in *. rewrite IH1, IH2, Hidx, Hlen. split; [| reflexivity].
    rewrite Z.rem_mod_nonneg by lia.
    rewrite Zplus_mod_idemp_l. f_equal. lia.
Qed.

Lemma run_prev_index (k : nat) : forall w,
  0 < cards_length (render w) ->
  0 <= currentCardIndex (state w) < cards_length (render w) ->
  currentCardIndex (state (run w (replicate k ClickPrev))) =
    (currentCardIndex (state w) - Z.of_nat k) mod cards_length (render w) /\
  cards_length (render (run w (replicate k ClickPrev))) = cards_length (render w).
Proof.
  induction k as [| k IH]; intros w Hn Hi.
  - simpl. rewrite Z.sub_0_r, Z.mod_small by assumption. split; reflexivity.
  - simpl. destruct (step_ClickPrev_index w Hn) as (Hidx & Hlen).
    assert (Hr : 0 <= currentCardIndex (state (step w ClickPrev))
                 < cards_length (render (step w ClickPrev))).
    { rewrite Hidx, Hlen. rewrite Z.rem_mod_nonneg by lia.
      apply Z.mod_pos_bound. assumption. }
    destruct (IH (step w ClickPrev)) as (IH1 & IH2); [rewrite Hlen; assumption | exact Hr |].
    unfold run in *. rewrite IH1, IH2, Hidx, Hlen. split; [| reflexivity].
    rewrite Z.rem_mod_nonneg by lia.
    rewrite Zminus_mod_idemp_l.
    replace (currentCardIndex (state w) - 1 + cards_length (render w) - Z.of_nat k)
      with (currentCardIndex (state w) - Z.of_nat (S k) + 1 * cards_length (render w))
      by lia.
    apply Z_mod_plus_full.
Qed.

(** C3 — wrap-around navigation: with [n > 0] cards and the index anywhere in
    [0, n), pressing "next" [n] times in a row brings [currentCardIndex] back
    to where it started, and so does pressing "previous" [n] times. *)
Theorem C3_wrap_around w (n : nat) :
  length (cards (props w)) = n ->
  (0 < n)%nat ->
  0 <= currentCardIndex (state w) < Z.of_nat n ->
  currentCardIndex (state (run w (replicate n ClickNext))) = currentCardIndex (state w) /\
  currentCardIndex (state (run w (replicate n ClickPrev))) = currentCardIndex (state w).
Proof.
  intros <- Hn Hi. set (n := length (cards (props w))) in *.
  assert (Hlen : cards_length (render w) = Z.of_nat n) by reflexivity.
  assert (Hn' : 0 < cards_length (render w)) by (rewrite Hlen; lia).
  rewrite <- Hlen in Hi. split.
  - destruct (run_next_index n w Hn' Hi) as (-> & _).
    rewrite Hlen.
    replace (currentCardIndex (state w) + Z.of_nat n)
      with (currentCardIndex (state w) + 1 * Z.of_nat n) by lia.
    rewrite Z_mod_plus_full. apply Z.mod_small. lia.
  - destruct (run_prev_index n w Hn' Hi) as (-> & _).
    rewrite Hlen.
    replace (currentCardIndex (state w) - Z.of_nat n)
      with (currentCardIndex (state w) + (-1) * Z.of_nat n) by lia.
    rewrite Z_mod_plus_full. apply Z.mod_small. lia.
Qed.

(** One press of a navigation button on a non-empty sequence. *)
Lemma step_navigate_progress w e :
  0 < cards_length (render w) ->
  e = ClickNext \/ e = ClickPrev ->
  progress (state (step w e)) = 0.
Proof.
  intros Hn [-> | ->].
  - rewrite step_ClickNext by assumption.
    apply commit_progress_zero, (nextCard_index (render w) w Hn).
  - rewrite step_ClickPrev by assumption.
    apply commit_progress_zero, (prevCard_index (render w) w Hn).
Qed.

(** C5 — progress reset on navigate: on a non-empty sequence every call of
    [nextCard] or [prevCard], whichever render it closes over (button, swipe
    or rotation interval), leaves [progress] at 0 both right after the
    handler and after the re-render, whatever [progress] was; with a single
    card the index stays where it is and the bar is reset all the same. *)
Theorem C5_progress_reset_on_navigate r w :
  0 < cards_length r ->
  (progress (state (nextCard r w)) = 0 /\
   progress (state (commit (nextCard r w))) = 0) /\
  (progress (state (prevCard r w)) = 0 /\
   progress (state (commit (prevCard r w))) = 0) /\
  (cards_length r = 1 -> currentCardIndex (state w) = 0 ->
   currentCardIndex (state (commit (nextCard r w))) = 0 /\
   currentCardIndex (state (commit (prevCard r w))) = 0).
Proof.
  intros Hn.
  destruct (nextCard_index r w Hn) as (Hni & Hnp & _).
  destruct (prevCard_index r w Hn) as (Hpi & Hpp & _).
  split; [split; auto using commit_progress_zero |].
  split; [split; auto using commit_progress_zero |].
  intros H1 H0. split.
  - rewrite commit_index, Hni, H1, H0. reflexivity.
  - rewrite commit_index, Hpi, H1, H0. reflexivity.
Qed.


(** ** The index stays in range *)

Lemma nextCard_in_range r w :
  cards_length r = cards_length (render w) ->
  index_in_range w ->
  props (nextCard r w) = props w /\ index_in_range (nextCard r w).
Proof.
  unfold index_in_range. intros Hr Hi.
  assert (Hn : 0 < cards_length r) by lia.
  destruct (nextCard_index r w Hn) as (Hidx & _ & Hp).
  split; [exact Hp |].
  rewrite (cards_length_props _ _ Hp), Hidx, Hr.
  rewrite Z.rem_mod_nonneg by lia. apply Z.mod_pos_bound. lia.
Qed.

Lemma prevCard_in_range r w :
  cards_length r = cards_length (render w) ->
  index_in_range w ->
  props (prevCard r w) = props w /\ index_in_range (prevCard r w).
Proof.
  unfold index_in_range. intros Hr Hi.
  assert (Hn : 0 < cards_length r) by lia.
  destruct (prevCard_index r w Hn) as (Hidx & _ & Hp).
  split; [exact Hp |].
  rewrite (cards_length_props _ _ Hp), Hidx, Hr.
  rewrite Z.rem_mod_nonneg by lia. apply Z.mod_pos_bound. lia.
Qed.

(** Handlers that leave both the props and the index alone. *)
Lemma keeps_in_range w w' :
  props w' = props w ->
  currentCardIndex (state w') = currentCardIndex (state w) ->
  index_in_range w -> props w' = props w /\ index_in_range w'.
Proof.
  unfold index_in_range. intros Hp Hi Hr.
  rewrite (cards_length_props _ _ Hp), Hi. auto.
Qed.

Ltac keeps :=
  match goal with
  | |- props ?w' = props ?w /\ index_in_range ?w' =>
      apply (keeps_in_range w w'); auto
  end.

Lemma handleCardClick_in_range r w :
  index_in_range w ->
  props (handleCardClick r w) = props w /\ index_in_range (handleCardClick r w).
Proof.
  intros Hi. unfold handleCardClick.
  destruct (isFlipped (r_state r)), (wasAutoPlayingBeforeFlip (r_state r)),
    (isAutoPlaying (r_state r)), (flipTimer (r_state r));
    keeps.
Qed.

Lemma handleTouchEnd_in_range w :
  index_in_range w ->
  props (handleTouchEnd (render w) w) = props w /\
  index_in_range (handleTouchEnd (render w) w).
Proof.
  intros Hi. unfold handleTouchEnd.
  destruct (_ || _); [auto |].
  destruct (50 <? _); [apply nextCard_in_range; auto |].
  destruct (_ <? -50); [apply prevCard_in_range; auto |].
  auto.
Qed.

Lemma fireTimer_in_range w id :
  Inv w -> index_in_range w ->
  props (fireTimer id w) = props w /\ index_in_range (fireTimer id w).
Proof.
  intros I Hi. unfold fireTimer.
  destruct (timers w !! id) as [[d cb | d cb] |] eqn:Et; [| | auto].
  - destruct (inv_intervals _ I _ _ _ Et) as (_ & _ & _ & _ & Hc).
    destruct cb as [| r | r]; cbn [runCallback].
    + keeps.
    + apply nextCard_in_range; [| assumption].
      apply (deps_inj _ _ Hc).
    + contradiction.
  - destruct (inv_timeouts _ I _ _ _ Et) as (_ & _ & _ & _ & r & -> & Hw).
    cbn [runCallback]. unfold flipBack. rewrite Hw.
    keeps.
Qed.

Lemma step_in_range w e :
  Inv w -> is_NewProps e = false -> index_in_range w ->
  props (step w e) = props w /\ index_in_range (step w e).
Proof.
  intros I He Hi.
  assert (Hd : props (dispatch e w) = props w /\ index_in_range (dispatch e w)).
  { unfold dispatch.
    destruct e; try discriminate;
      try match goal with
          | |- context [if controlsRendered ?r then _ else _] =>
              destruct (controlsRendered r); [| auto]
          end.
    - apply nextCard_in_range; auto.
    - apply prevCard_in_range; auto.
    - apply handleCardClick_in_range; auto.
    - keeps.
    - keeps.
    - keeps.
    - apply handleTouchEnd_in_range; auto.
    - apply fireTimer_in_range; auto. }
  destruct Hd as (Hp & Hr). unfold step.
  split; [rewrite commit_props; exact Hp |].
  unfold index_in_range in *.
  rewrite commit_index, commit_cards_length. exact Hr.
Qed.

Lemma run_in_range es : forall w,
  Inv w -> Forall (fun e => is_NewProps e = false) es -> index_in_range w ->
  props (run w es) = props w /\ index_in_range (run w es).
Proof.
  induction es as [| e es IH]; intros w I Hes Hi; [auto |].
  inversion Hes as [| ? ? He Hes']; subst.
  destruct (step_in_range w e I He Hi) as (Hp & Hr).
  destruct (IH (step w e) (step_Inv w e I) Hes' Hr) as (Hp' & Hr').
  simpl. split; [rewrite <- Hp; exact Hp' | exact Hr'].
Qed.

Lemma mount_state p :
  state (mount p) = mkState 0 (initialAutoPlay p) 0 false None None None false /\
  props (mount p) = p.
Proof.
  unfold mount, autoplayEffect.
  destruct (_ && _ && _); [rewrite startAutoPlay_eq | rewrite stopAutoPlay_eq];
    split; reflexivity.
Qed.

(** C4 — index range invariant: with [n > 0] cards, from the first render
    (index 0) and through any sequence of events that does not replace the
    props — the two navigation buttons, the card click (flip), the
    play/pause button, and also swipes and every timer that fires —
    [currentCardIndex] is an integer with [0 <= currentCardIndex < n]. *)
Theorem C4_index_range_invariant p es :
  (0 < length (cards p))%nat ->
  Forall (fun e => is_NewProps e = false) es ->
  0 <= currentCardIndex (state (run (mount p) es)) < Z.of_nat (length (cards p)).
Proof.
  intros Hn Hes.
  destruct (mount_state p) as (Hs & Hp).
  assert (Hi : index_in_range (mount p)).
  { unfold index_in_range, cards_length, render. cbn [r_props r_state].
    rewrite Hs, Hp. simpl. lia. }
  destruct (run_in_range es (mount p) (mount_Inv p) Hes Hi) as (Hp' & Hr).
  unfold index_in_range, cards_length, render in Hr. cbn [r_props r_state] in Hr.
  rewrite Hp', Hp in Hr. exact Hr.
Qed.


(** ** Leaving the playing state *)

Lemma step_ClickPlayPause w :
  0 < cards_length (render w) ->
  step w ClickPlayPause = commit (handlePlayPauseClick (render w) w).
Proof.
  intros Hn. unfold step, dispatch.
  apply controlsRendered_length in Hn. rewrite Hn. reflexivity.
Qed.

Lemma step_ClickCard w :
  0 < cards_length (render w) ->
  step w ClickCard = commit (handleCardClick (render w) w).
Proof.
  intros Hn. unfold step, dispatch.
  apply controlsRendered_length in Hn. rewrite Hn. reflexivity.
Qed.

(** C10 — pausing also clears the progress bar.  In every reachable world,
    [isAutoPlaying = false] or [isFlipped = true] implies [progress = 0]; in
    particular the two ways out of the playing state, the play/pause button
    and the click that flips the card, end with [isAutoPlaying = false],
    [progress = 0] and no interval left in the browser. *)
Theorem C10_progress_zero_unless_playing w :
  reachable w ->
  (isAutoPlaying (state w) = false \/ isFlipped (state w) = true ->
   progress (state w) = 0) /\
  (isAutoPlaying (state w) = true -> isFlipped (state w) = false ->
   0 < cards_length (render w) ->
   forall e, e = ClickPlayPause \/ e = ClickCard ->
     isAutoPlaying (state (step w e)) = false /\
     progress (state (step w e)) = 0 /\
     forall id d cb, timers (step w e) !! id <> Some (Interval d cb)).
Proof.
  intros Hr. pose proof (reachable_Inv w Hr) as I. split.
  - apply (inv_progress _ I).
  - intros Hap Hfl Hn e He.
    pose proof (step_Inv w e I) as I'.
    assert (Hoff : isAutoPlaying (state (step w e)) = false).
    { destruct He as [-> | ->].
      - rewrite step_ClickPlayPause, commit_isAutoPlaying by assumption.
        unfold handlePlayPauseClick. wsimpl. rewrite Hap. reflexivity.
      - rewrite step_ClickCard, commit_isAutoPlaying by assumption.
        unfold handleCardClick. wsimpl. rewrite Hfl, Hap. reflexivity. }
    split; [exact Hoff |]. split.
    + apply (inv_progress _ I'). left. exact Hoff.
    + intros id d cb Hi.
      destruct (inv_intervals _ I' _ _ _ Hi) as (_ & Hp & _). congruence.
Qed.


(** ** Navigating away from a flipped card *)

Lemma without_lookup_None h m id :
  m !! id = None -> without h m !! id = None.
Proof.
  intros H. destruct (without h m !! id) eqn:E; [| reflexivity].
  apply without_Some in E as (_ & E). congruence.
Qed.

(** A handle that is dead before the re-render is dead after it: the effect
    only registers fresh handles. *)
Lemma commit_lookup_None w id :
  timers w !! id = None -> (id < next_timer w)%positive ->
  timers (commit w) !! id = None.
Proof.
  intros Hid Hlt. unfold commit. case_bool_decide; [exact Hid |].
  unfold autoplayEffect. rewrite autoplayCleanup_eq.
  destruct (_ && _ && _); [rewrite startAutoPlay_eq | rewrite stopAutoPlay_eq];
    wsimpl.
  - rewrite lookup_insert_ne by lia. rewrite lookup_insert_ne by lia.
    repeat apply without_lookup_None. exact Hid.
  - repeat apply without_lookup_None. exact Hid.
Qed.

(** A timer that is no longer in the table fires no callback. *)
Lemma step_dead_timer w id :
  Inv w -> timers w !! id = None -> step w (TimerFires id) = w.
Proof.
  intros I Hid. unfold step, dispatch, fireTimer. rewrite Hid.
  apply commit_id, (inv_deps _ I).
Qed.

Lemma resetFlipOnNavigate_flipped w :
  isFlipped (state w) = true ->
  let w' := resetFlipOnNavigate (render w) w in
  state w' =
    mkState (currentCardIndex (state w))
            (if wasAutoPlayingBeforeFlip (state w) then true
             else isAutoPlaying (state w))
            (progress (state w)) false (touchStart (state w)) (touchEnd (state w))
            None
            (if wasAutoPlayingBeforeFlip (state w) then false
             else wasAutoPlayingBeforeFlip (state w)) /\
  timers w' = without (flipTimer (state w)) (timers w) /\
  next_timer w' = next_timer w.
Proof.
  intros Hf. unfold resetFlipOnNavigate. wsimpl. rewrite Hf.
  destruct (wasAutoPlayingBeforeFlip (state w)) eqn:Ew, (flipTimer (state w));
    repeat split; try reflexivity;
    unfold setWasAutoPlayingBeforeFlip, setIsAutoPlaying, setFlipTimer,
      setIsFlipped, clearTimeout, clearTimer, with_state; wsimpl;
    rewrite ?Ew; reflexivity.
Qed.

Lemma navigate_flipped w e :
  isFlipped (state w) = true -> 0 < cards_length (render w) ->
  e = ClickNext \/ e = ClickPrev ->
  let w' := dispatch e w in
  isFlipped (state w') = false /\ flipTimer (state w') = None /\
  isAutoPlaying (state w') =
    (if wasAutoPlayingBeforeFlip (state w) then true else isAutoPlaying (state w)) /\
  wasAutoPlayingBeforeFlip (state w') = false /\
  timers w' = without (flipTimer (state w)) (timers w) /\
  next_timer w' = next_timer w.
Proof.
  intros Hf Hn He.
  destruct (resetFlipOnNavigate_flipped w Hf) as (Hs & Ht & Hx).
  pose proof Hn as Hc. apply controlsRendered_length in Hc.
  apply Z.ltb_lt in Hn.
  destruct He as [-> | ->]; unfold dispatch; rewrite Hc;
    [unfold nextCard | unfold prevCard]; rewrite Hn;
    unfold setProgress, setCurrentCardIndex, with_state; wsimpl;
    rewrite Hs, Ht, Hx; wsimpl;
    destruct (wasAutoPlayingBeforeFlip (state w)); repeat split; reflexivity.
Qed.

(** C2 — navigating while flipped resolves the flip at once.  In every
    reachable world showing a flipped card, "next" and "previous" cancel the
    pending flip-revert timer in the handler itself, clear [isFlipped] and
    [flipTimer], turn [isAutoPlaying] on exactly when
    [wasAutoPlayingBeforeFlip] was set (it is left as it was otherwise) and
    clear that flag, and move the index one place with wrap-around;
    afterwards no timeout is pending, and the old handle coming due at its
    original deadline changes nothing. *)
Theorem C2_navigate_cancels_flip w e :
  reachable w ->
  isFlipped (state w) = true ->
  0 < cards_length (render w) ->
  e = ClickNext \/ e = ClickPrev ->
  let w' := step w e in
  let n := cards_length (render w) in
  let i := currentCardIndex (state w) in
  isFlipped (state w') = false /\
  flipTimer (state w') = None /\
  isAutoPlaying (state w') =
    (if wasAutoPlayingBeforeFlip (state w) then true else isAutoPlaying (state w)) /\
  wasAutoPlayingBeforeFlip (state w') = false /\
  currentCardIndex (state w') =
    match e with
    | ClickNext => Z.rem (i + 1) n
    | _ => Z.rem (i - 1 + n) n
    end /\
  (forall id d cb, timers w' !! id <> Some (Timeout d cb)) /\
  (forall id, flipTimer (state w) = Some id ->
     timers (dispatch e w) !! id = None /\
     timers w' !! id = None /\ step w' (TimerFires id) = w').
Proof.
  intros Hr Hf Hn He w' n i.
  pose proof (reachable_Inv w Hr) as I.
  pose proof (step_Inv w e I) as I'. fold w' in I'.
  destruct (navigate_flipped w e Hf Hn He) as (H1 & H2 & H3 & H4 & H5 & H6).
  assert (Hfl' : isFlipped (state w') = false).
  { unfold w', step. rewrite commit_isFlipped. exact H1. }
  split; [exact Hfl' |].
  split; [unfold w', step; rewrite commit_flipTimer; exact H2 |].
  split; [unfold w', step; rewrite commit_isAutoPlaying; exact H3 |].
  split; [unfold w', step; rewrite commit_was; exact H4 |].
  split.
  { destruct He as [-> | ->].
    - apply (step_ClickNext_index w Hn).
    - apply (step_ClickPrev_index w Hn). }
  split.
  { intros id d cb Hi.
    destruct (inv_timeouts _ I' _ _ _ Hi) as (_ & Hc & _). congruence. }
  intros id Hid.
  assert (Hsync : timers (dispatch e w) !! id = None).
  { rewrite H5. apply without_None. exact Hid. }
  assert (Hnone : timers w' !! id = None).
  { unfold w', step. apply commit_lookup_None; [exact Hsync |].
    rewrite H6. apply (inv_fresh _ I). auto. }
  split; [exact Hsync |]. split; [exact Hnone |].
  apply step_dead_timer; assumption.
Qed.

(** ** Flipping the card and letting the timer run *)

(** A timer held by none of the cells the cleanup clears survives the
    re-render. *)
Lemma commit_lookup_Some w id t :
  timers w !! id = Some t -> (id < next_timer w)%positive ->
  intervalRef w <> Some id -> progressRef w <> Some id ->
  flipTimer (r_state (mounted w)) <> Some id ->
  timers (commit w) !! id = Some t.
Proof.
  intros Hid Hlt Hi Hp Hf. unfold commit. case_bool_decide; [exact Hid |].
  unfold autoplayEffect. rewrite autoplayCleanup_eq.
  destruct (_ && _ && _); [rewrite startAutoPlay_eq | rewrite stopAutoPlay_eq];
    wsimpl.
  - rewrite lookup_insert_ne by lia. rewrite lookup_insert_ne by lia.
    repeat (apply without_Some; split; [assumption |]). exact Hid.
  - repeat (apply without_Some; split; [assumption |]). exact Hid.
Qed.

Lemma handleCardClick_unflipped w :
  isFlipped (state w) = false ->
  let w1 := handleCardClick (render w) w in
  state w1 =
    mkState (currentCardIndex (state w)) false (progress (state w)) true
            (touchStart (state w)) (touchEnd (state w))
            (Some (next_timer w)) (isAutoPlaying (state w)) /\
  timers w1 = <[next_timer w := Timeout 5000 (FlipBack (render w))]> (timers w) /\
  next_timer w1 = Pos.succ (next_timer w) /\
  intervalRef w1 = intervalRef w /\ progressRef w1 = progressRef w /\
  mounted w1 = mounted w.
Proof.
  intros Hf. unfold handleCardClick. wsimpl. rewrite Hf.
  destruct (isAutoPlaying (state w)) eqn:Ea; repeat split; try reflexivity;
    unfold setWasAutoPlayingBeforeFlip, setIsAutoPlaying, setFlipTimer,
      setIsFlipped, setTimeout, addTimer, with_state; wsimpl;
    rewrite ?Ea; reflexivity.
Qed.

(** From any quiescent world showing an unflipped card: the click flips the
    card, stops autoplay and arms one 5000 ms timeout whose callback closes
    over the render of the click; when that timeout fires the card is turned
    back, but [isAutoPlaying] stays off, because the callback tests the
    [wasAutoPlayingBeforeFlip] of the render it closes over, which is
    always [false]. *)
Lemma flip_then_timer w :
  Inv w ->
  isFlipped (state w) = false ->
  0 < cards_length (render w) ->
  let t := next_timer w in
  let w1 := step w ClickCard in
  let w2 := step w1 (TimerFires t) in
  (isAutoPlaying (state w1) = false /\ isFlipped (state w1) = true /\
   wasAutoPlayingBeforeFlip (state w1) = isAutoPlaying (state w) /\
   flipTimer (state w1) = Some t /\
   currentCardIndex (state w1) = currentCardIndex (state w) /\
   timers w1 !! t = Some (Timeout 5000 (FlipBack (render w))) /\
   forall id d cb, timers w1 !! id <> Some (Interval d cb)) /\
  (isFlipped (state w2) = false /\ isAutoPlaying (state w2) = false /\
   wasAutoPlayingBeforeFlip (state w2) = false /\
   flipTimer (state w2) = None /\
   currentCardIndex (state w2) = currentCardIndex (state w) /\
   forall id d cb, timers w2 !! id <> Some (Timeout d cb)).
Proof.
  intros I Hf Hn t w1 w2.
  pose proof (step_Inv w ClickCard I) as I1. fold w1 in I1.
  pose proof (step_Inv w1 (TimerFires t) I1) as I2. fold w2 in I2.
  destruct (handleCardClick_unflipped w Hf) as (Hs & Ht & Hx & Hi & Hp & Hm).
  destruct (inv_unflipped _ I Hf) as (Hwas & Hft).
  assert (E1 : w1 = commit (handleCardClick (render w) w))
    by (apply step_ClickCard; exact Hn).
  assert (A1 : isAutoPlaying (state w1) = false)
    by (rewrite E1, commit_isAutoPlaying, Hs; reflexivity).
  assert (F1 : isFlipped (state w1) = true)
    by (rewrite E1, commit_isFlipped, Hs; reflexivity).
  assert (T1 : timers w1 !! t = Some (Timeout 5000 (FlipBack (render w)))).
  { rewrite E1. apply commit_lookup_Some.
    - rewrite Ht. apply lookup_insert_eq.
    - rewrite Hx. fold t. lia.
    - rewrite Hi. intros Hc.
      pose proof (inv_fresh _ I t (or_introl Hc)). unfold t in *. lia.
    - rewrite Hp. intros Hc.
      pose proof (inv_fresh _ I t (or_intror (or_introl Hc))). unfold t in *. lia.
    - rewrite Hm.
      destruct (deps_inj _ _ (inv_deps _ I)) as (_ & _ & _ & _ & _ & Hc & _).
      rewrite Hc. wsimpl. rewrite Hft. discriminate. }
  split.
  - split; [exact A1 |]. split; [exact F1 |].
    split; [rewrite E1, commit_was, Hs; reflexivity |].
    split; [rewrite E1, commit_flipTimer, Hs; reflexivity |].
    split; [rewrite E1, commit_index, Hs; reflexivity |].
    split; [exact T1 |].
    intros id d cb Hid.
    destruct (inv_intervals _ I1 _ _ _ Hid) as (_ & _ & Hc & _). congruence.
  - assert (E2 : w2 = commit (flipBack (render w) (clearTimer (Some t) w1))).
    { unfold w2, step, dispatch, fireTimer. rewrite T1. reflexivity. }
    assert (S2 : state (flipBack (render w) (clearTimer (Some t) w1)) =
                 mkState (currentCardIndex (state w1)) (isAutoPlaying (state w1))
                         (progress (state w1)) false (touchStart (state w1))
                         (touchEnd (state w1)) None false).
    { unfold flipBack. wsimpl. rewrite Hwas. reflexivity. }
    assert (F2 : isFlipped (state w2) = false)
      by (rewrite E2, commit_isFlipped, S2; reflexivity).
    split; [exact F2 |].
    split; [rewrite E2, commit_isAutoPlaying, S2; exact A1 |].
    split; [rewrite E2, commit_was, S2; reflexivity |].
    split; [rewrite E2, commit_flipTimer, S2; reflexivity |].
    split.
    { rewrite E2, commit_index, S2. cbn [currentCardIndex].
      rewrite E1, commit_index, Hs. reflexivity. }
    intros id d cb Hid.
    destruct (inv_timeouts _ I2 _ _ _ Hid) as (_ & Hc & _). congruence.
Qed.

(** C1 — flip during autoplay.  The scenario of the specification, on the
    code: a non-empty slideshow mounted with autoplay on shows card 0 and is
    playing; the click flips the card, turns [isAutoPlaying] off and leaves
    no interval armed, only the 5000 ms flip-revert timeout; when that
    timeout fires, [isFlipped] is cleared and the index is still 0, but
    [isAutoPlaying] is still [false]: autoplay is not resumed. *)
Theorem C1_flip_revert_leaves_autoplay_off (c : Card) (cs : list Card) (tick : Z) :
  let w := mount (mkProps (c :: cs) tick true) in
  let t := next_timer w in
  let w1 := step w ClickCard in
  let w2 := step w1 (TimerFires t) in
  (currentCardIndex (state w) = 0 /\ isAutoPlaying (state w) = true /\
   isFlipped (state w) = false) /\
  (isAutoPlaying (state w1) = false /\ isFlipped (state w1) = true /\
   wasAutoPlayingBeforeFlip (state w1) = true /\
   timers w1 !! t = Some (Timeout 5000 (FlipBack (render w))) /\
   forall id d cb, timers w1 !! id <> Some (Interval d cb)) /\
  (isFlipped (state w2) = false /\ currentCardIndex (state w2) = 0 /\
   isAutoPlaying (state w2) = false).
Proof.
  intros w t w1 w2.
  destruct (mount_state (mkProps (c :: cs) tick true)) as (Hs & Hp).
  fold w in Hs, Hp.
  assert (Hn : 0 < cards_length (render w)).
  { unfold cards_length, render. cbn [r_props]. rewrite Hp. simpl. lia. }
  assert (Hf : isFlipped (state w) = false) by (rewrite Hs; reflexivity).
  destruct (flip_then_timer w (mount_Inv _) Hf Hn)
    as ((A1 & F1 & W1 & _ & _ & T1 & N1) & (F2 & A2 & _ & _ & X2 & _)).
  fold t w1 w2 in A1, F1, W1, T1, N1, F2, A2, X2.
  split; [rewrite Hs; repeat split; reflexivity |].
  split.
  - split; [exact A1 |]. split; [exact F1 |].
    split; [rewrite W1, Hs; reflexivity |].
    split; [exact T1 | exact N1].
  - split; [exact F2 |].
    split; [rewrite X2, Hs; reflexivity | exact A2].
Qed.

(** Only [NewProps] changes the props. *)
Lemma nextCard_props r w : props (nextCard r w) = props w.
Proof.
  unfold nextCard, resetFlipOnNavigate.
  destruct (isFlipped (r_state r)), (wasAutoPlayingBeforeFlip (r_state r)),
    (flipTimer (r_state r)), (0 <? cards_length r); reflexivity.
Qed.

Lemma prevCard_props r w : props (prevCard r w) = props w.
Proof.
  unfold prevCard, resetFlipOnNavigate.
  destruct (isFlipped (r_state r)), (wasAutoPlayingBeforeFlip (r_state r)),
    (flipTimer (r_state r)), (0 <? cards_length r); reflexivity.
Qed.

Lemma step_props w e : is_NewProps e = false -> props (step w e) = props w.
Proof.
  intros He. unfold step. rewrite commit_props. unfold dispatch.
  destruct e; try discriminate;
    try match goal with
        | |- context [if controlsRendered ?r then _ else _] =>
            destruct (controlsRendered r); [| reflexivity]
        end; try reflexivity.
  - apply nextCard_props.
  - apply prevCard_props.
  - unfold handleCardClick. wsimpl.
    destruct (isFlipped (state w)), (wasAutoPlayingBeforeFlip (state w)),
      (isAutoPlaying (state w)), (flipTimer (state w)); reflexivity.
  - unfold handleTouchEnd.
    destruct (_ || _); [reflexivity |].
    destruct (50 <? _); [apply nextCard_props |].
    destruct (_ <? -50); [apply prevCard_props | reflexivity].
  - unfold fireTimer.
    destruct (timers w !! id) as [[d [| r | r] | d [| r | r]] |];
      cbn [runCallback]; try reflexivity; try apply nextCard_props.
    + unfold flipBack. destruct (wasAutoPlayingBeforeFlip (r_state r)); reflexivity.
    + rewrite nextCard_props. reflexivity.
    + unfold flipBack. destruct (wasAutoPlayingBeforeFlip (r_state r)); reflexivity.
Qed.

(** The other way out of a flip, a second click on the card, reads
    [wasAutoPlayingBeforeFlip] from the render of that second click and does
    resume autoplay. *)
Lemma flip_then_click_resumes w :
  Inv w ->
  isFlipped (state w) = false -> isAutoPlaying (state w) = true ->
  0 < cards_length (render w) ->
  let w2 := step (step w ClickCard) ClickCard in
  isFlipped (state w2) = false /\ isAutoPlaying (state w2) = true.
Proof.
  intros I Hf Ha Hn w2.
  destruct (flip_then_timer w I Hf Hn) as ((A1 & F1 & W1 & _) & _).
  set (w1 := step w ClickCard) in *.
  assert (Hn1 : 0 < cards_length (render w1)).
  { unfold w1. rewrite (cards_length_props w (step w ClickCard)); [exact Hn |].
    apply step_props. reflexivity. }
  unfold w2. rewrite (step_ClickCard w1 Hn1).
  rewrite commit_isFlipped, commit_isAutoPlaying.
  unfold handleCardClick. wsimpl. rewrite F1, W1, Ha.
  destruct (flipTimer (state w1)); split; reflexivity.
Qed.

(** ** The swipe recogniser *)

(** What [handleTouchEnd] does once both coordinates pass its guard. *)
Lemma handleTouchEnd_threshold r w ts te :
  touchStart (r_state r) = Some ts -> touchEnd (r_state r) = Some te ->
  ts <> 0 -> te <> 0 ->
  handleTouchEnd r w =
    if 50 <? ts - te then nextCard r w
    else if ts - te <? -50 then prevCard r w
    else w.
Proof.
  intros Hs He Hs0 He0. unfold handleTouchEnd. rewrite Hs, He. simpl.
  apply Z.eqb_neq in Hs0, He0. rewrite Hs0, He0. reflexivity.
Qed.

(** The guard itself: a gesture is dropped when a coordinate is missing or
    is the number 0. *)
Lemma handleTouchEnd_guard r w :
  falsy (touchStart (r_state r)) = true \/ falsy (touchEnd (r_state r)) = true ->
  handleTouchEnd r w = w.
Proof.
  intros [H | H]; unfold handleTouchEnd; rewrite H; [reflexivity |].
  rewrite orb_true_r. reflexivity.
Qed.

Lemma nextCard_touch r w :
  touchStart (state (nextCard r w)) = touchStart (state w) /\
  touchEnd (state (nextCard r w)) = touchEnd (state w).
Proof.
  unfold nextCard, resetFlipOnNavigate.
  destruct (isFlipped (r_state r)), (wasAutoPlayingBeforeFlip (r_state r)),
    (flipTimer (r_state r)), (0 <? cards_length r); split; reflexivity.
Qed.

Lemma prevCard_touch r w :
  touchStart (state (prevCard r w)) = touchStart (state w) /\
  touchEnd (state (prevCard r w)) = touchEnd (state w).
Proof.
  unfold prevCard, resetFlipOnNavigate.
  destruct (isFlipped (r_state r)), (wasAutoPlayingBeforeFlip (r_state r)),
    (flipTimer (r_state r)), (0 <? cards_length r); split; reflexivity.
Qed.

Lemma handleTouchEnd_touch r w :
  touchStart (state (handleTouchEnd r w)) = touchStart (state w) /\
  touchEnd (state (handleTouchEnd r w)) = touchEnd (state w).
Proof.
  unfold handleTouchEnd.
  destruct (_ || _); [split; reflexivity |].
  destruct (50 <? _); [apply nextCard_touch |].
  destruct (_ <? -50); [apply prevCard_touch | split; reflexivity].
Qed.

(** [handleTouchStart] writes both cells, whatever they held. *)
Lemma handleTouchStart_overwrites a b x w :
  handleTouchStart x (setTouchEnd b (setTouchStart a w)) = handleTouchStart x w.
Proof. reflexivity. Qed.

(** C8 (as the code has it) — the recorded coordinates are not discarded at
    touch-end: [handleTouchEnd] leaves [touchStart] and [touchEnd] as they
    are, below and above the threshold alike.  They are discarded at the
    next touch-start, which clears [touchEnd] and overwrites [touchStart],
    so a gesture that begins with a touch-start starts from the same world
    whatever an earlier gesture left in the two cells. *)
Theorem C8_coordinates_reset_at_touch_start w :
  (touchStart (state (step w TouchEnd)) = touchStart (state w) /\
   touchEnd (state (step w TouchEnd)) = touchEnd (state w)) /\
  (0 < cards_length (render w) ->
   forall a b x,
     step (setTouchEnd b (setTouchStart a w)) (TouchStart x) = step w (TouchStart x) /\
     touchStart (state (step w (TouchStart x))) = Some x /\
     touchEnd (state (step w (TouchStart x))) = None).
Proof.
  split.
  - unfold step. destruct (commit_touch (dispatch TouchEnd w)) as (-> & ->).
    unfold dispatch. destruct (controlsRendered (render w)); [| split; reflexivity].
    apply handleTouchEnd_touch.
  - intros Hn a b x. apply controlsRendered_length in Hn.
    assert (E : step w (TouchStart x) = commit (handleTouchStart x w)).
    { unfold step, dispatch. rewrite Hn. reflexivity. }
    split; [| rewrite E; destruct (commit_touch (handleTouchStart x w)) as (-> & ->);
              split; reflexivity].
    rewrite E. unfold step, dispatch.
    replace (controlsRendered (render (setTouchEnd b (setTouchStart a w))))
      with (controlsRendered (render w)) by reflexivity.
    rewrite Hn, handleTouchStart_overwrites. reflexivity.
Qed.

(** ** Replacing the card list *)

(** The re-render when a dependency did change. *)
Lemma commit_changed w :
  deps (mounted w) <> deps (render w) ->
  progress (state (commit w)) = 0 /\
  (forall id, intervalRef w = Some id \/ progressRef w = Some id \/
              flipTimer (r_state (mounted w)) = Some id ->
              (id < next_timer w)%positive -> timers (commit w) !! id = None) /\
  (isAutoPlaying (state w) && (0 <? cards_length (render w))
     && negb (isFlipped (state w)) = true ->
   timers (commit w) !! Pos.succ (next_timer w) =
     Some (Interval (tickInterval (props w) * 1000) (CardRotation (render w))) /\
   timers (commit w) !! next_timer w =
     Some (Interval ((tickInterval (props w) * 1000) / 100) ProgressTick)).
Proof.
  intros Hd. unfold commit. rewrite bool_decide_eq_false_2 by assumption.
  assert (Hgone : forall id,
            intervalRef w = Some id \/ progressRef w = Some id \/
            flipTimer (r_state (mounted w)) = Some id ->
            without (flipTimer (r_state (mounted w)))
              (without (progressRef w) (without (intervalRef w) (timers w)))
            !! id = None).
  { intros id [H | [H | H]].
    - apply without_lookup_None, without_lookup_None, without_None, H.
    - apply without_lookup_None, without_None, H.
    - apply without_None, H. }
  unfold autoplayEffect. rewrite autoplayCleanup_eq. wsimpl.
  destruct (_ && _ && _); [rewrite startAutoPlay_eq | rewrite stopAutoPlay_eq];
    wsimpl.
  - split; [reflexivity |]. split.
    + intros id Hid Hlt.
      rewrite lookup_insert_ne by lia. rewrite lookup_insert_ne by lia.
      apply without_lookup_None, without_lookup_None, Hgone, Hid.
    + intros _. split.
      * apply lookup_insert_eq.
      * rewrite lookup_insert_ne by lia. apply lookup_insert_eq.
  - split; [reflexivity |]. split.
    + intros id Hid _.
      apply without_lookup_None, without_lookup_None, Hgone, Hid.
    + discriminate.
Qed.

(** C9 (as the code has it) — when the parent passes another card list the
    component keeps [currentCardIndex], [isFlipped] and [isAutoPlaying] as
    they are: the index is not clamped, and [currentCard] is [null] while
    the index lies beyond the new list.  If the new list has another length,
    the effect is re-run: [progress] is 0, every timer that was live
    (autoplay, progress, flip-revert) is cancelled, and the two intervals are
    armed anew exactly when the slideshow is playing an unflipped card and
    the new list is non-empty.  If length and tick interval are the same,
    nothing but the props changes. *)
Theorem C9_replacing_cards_keeps_index w p' :
  reachable w ->
  let w' := step w (NewProps p') in
  let n' := Z.of_nat (length (cards p')) in
  props w' = p' /\
  currentCardIndex (state w') = currentCardIndex (state w) /\
  isFlipped (state w') = isFlipped (state w) /\
  isAutoPlaying (state w') = isAutoPlaying (state w) /\
  (n' <= currentCardIndex (state w) -> currentCard (render w') = None) /\
  (length (cards p') = length (cards (props w)) ->
   tickInterval p' = tickInterval (props w) -> w' = set_props p' w) /\
  (length (cards p') <> length (cards (props w)) ->
   progress (state w') = 0 /\
   (forall id, is_Some (timers w !! id) -> timers w' !! id = None) /\
   (forall id d cb, timers w' !! id <> Some (Timeout d cb)) /\
   ((exists id d cb, timers w' !! id = Some (Interval d cb)) <->
    isAutoPlaying (state w) = true /\ isFlipped (state w) = false /\ 0 < n')).
Proof.
  intros Hr w' n'.
  pose proof (reachable_Inv w Hr) as I.
  pose proof (step_Inv w (NewProps p') I) as I'. fold w' in I'.
  assert (E : w' = commit (set_props p' w)) by reflexivity.
  assert (Hp : props w' = p') by (rewrite E, commit_props; reflexivity).
  assert (Hi : currentCardIndex (state w') = currentCardIndex (state w))
    by (rewrite E, commit_index; reflexivity).
  assert (Hf : isFlipped (state w') = isFlipped (state w))
    by (rewrite E, commit_isFlipped; reflexivity).
  assert (Ha : isAutoPlaying (state w') = isAutoPlaying (state w))
    by (rewrite E, commit_isAutoPlaying; reflexivity).
  repeat (split; [assumption |]).
  split.
  { intros Hge. unfold currentCard, render. cbn [r_props r_state].
    rewrite Hp, Hi.
    destruct (currentCardIndex (state w) <? 0); [reflexivity |].
    apply lookup_ge_None. unfold n' in Hge. lia. }
  split.
  { intros Hlen Htick. rewrite E. apply commit_id.
    cbn [mounted set_props]. rewrite (inv_deps _ I).
    unfold deps, cards_length, render. cbn [r_props r_state props state set_props].
    rewrite Hlen, Htick. reflexivity. }
  intros Hlen.
  assert (Hd : deps (mounted (set_props p' w)) <> deps (render (set_props p' w))).
  { cbn [mounted set_props]. rewrite (inv_deps _ I).
    unfold deps, cards_length, render. cbn [r_props r_state props state set_props].
    intros Hc. injection Hc as Hc _. apply Hlen. lia. }
  destruct (commit_changed _ Hd) as (H0 & Hgone & Harm).
  rewrite <- E in H0, Hgone, Harm.
  cbn [mounted set_props intervalRef progressRef next_timer state props] in Hgone, Harm.
  split; [exact H0 |]. split.
  { intros id [t Ht].
    assert (Hlt : (id < next_timer w)%positive) by (apply (inv_fresh _ I); eauto).
    apply Hgone; [| exact Hlt].
    destruct t as [d cb | d cb].
    - destruct (inv_intervals _ I _ _ _ Ht) as ([H | H] & _); auto.
    - destruct (inv_timeouts _ I _ _ _ Ht) as (H & _).
      right; right.
      destruct (deps_inj _ _ (inv_deps _ I)) as (_ & _ & _ & _ & _ & Hc & _).
      rewrite Hc. exact H. }
  split.
  { intros id d cb Ht.
    destruct (inv_timeouts _ I' _ _ _ Ht) as (Hft & _).
    rewrite E, commit_flipTimer in Hft. cbn [state set_props] in Hft.
    assert (Hold : timers w' !! id = None).
    { apply Hgone.
      - right; right.
        destruct (deps_inj _ _ (inv_deps _ I)) as (_ & _ & _ & _ & _ & Hc & _).
        rewrite Hc. exact Hft.
      - apply (inv_fresh _ I). auto. }
    congruence. }
  split.
  - intros (id & d & cb & Ht).
    destruct (inv_intervals _ I' _ _ _ Ht) as (_ & A & F & N & _).
    rewrite Ha in A. rewrite Hf in F.
    repeat split; try assumption.
    unfold cards_length, render in N. cbn [r_props] in N. rewrite Hp in N. exact N.
  - intros (A & F & N).
    destruct Harm as (_ & Harm).
    { rewrite A, F. apply Z.ltb_lt in N.
      replace (cards_length (render (set_props p' w))) with n' by reflexivity.
      rewrite N. reflexivity. }
    eauto.
Qed.

(** ** The empty card list *)

(** C6 — with no cards, in every reachable world:
    [currentCard] is [null]; the browser holds no timer at all (no autoplay
    interval, no progress interval, no flip-revert timeout); the card, the
    buttons and the touch surface are not rendered, so every click or touch
    leaves the world as it is, and so does every timer handle that fires;
    and [nextCard] / [prevCard], the handlers guarded by [cards.length > 0],
    leave index and progress alone. *)
Theorem C6_empty_sequence w :
  reachable w ->
  cards (props w) = [] ->
  currentCard (render w) = None /\
  timers w = ∅ /\
  (forall e, is_NewProps e = false -> step w e = w) /\
  (currentCardIndex (state (nextCard (render w) w)) = currentCardIndex (state w) /\
   progress (state (nextCard (render w) w)) = progress (state w) /\
   currentCardIndex (state (prevCard (render w) w)) = currentCardIndex (state w) /\
   progress (state (prevCard (render w) w)) = progress (state w)).
Proof.
  intros Hr He. pose proof (reachable_Inv w Hr) as I.
  assert (Hn : cards_length (render w) = 0).
  { unfold cards_length, render. cbn [r_props]. rewrite He. reflexivity. }
  assert (Ht : timers w = ∅).
  { apply map_empty. intros id.
    destruct (timers w !! id) as [[d cb | d cb] |] eqn:E; [| | reflexivity].
    - destruct (inv_intervals _ I _ _ _ E) as (_ & _ & _ & N & _). lia.
    - destruct (inv_timeouts _ I _ _ _ E) as (_ & _ & N & _). lia. }
  split.
  { unfold currentCard, render. cbn [r_props r_state]. rewrite He.
    destruct (_ <? 0); reflexivity. }
  split; [exact Ht |].
  split.
  { intros e Hne. unfold step.
    assert (Hd : dispatch e w = w).
    { unfold dispatch.
      assert (Hc : controlsRendered (render w) = false).
      { unfold controlsRendered. rewrite Hn. reflexivity. }
      destruct e; try discriminate; rewrite ?Hc; try reflexivity.
      unfold fireTimer. rewrite Ht, lookup_empty. reflexivity. }
    rewrite Hd. apply commit_id, (inv_deps _ I). }
  unfold nextCard, prevCard, resetFlipOnNavigate. rewrite Hn. cbn [Z.ltb Z.compare].
  destruct (isFlipped (r_state (render w))),
    (wasAutoPlayingBeforeFlip (r_state (render w))),
    (flipTimer (r_state (render w))); repeat split; reflexivity.
Qed.

End Properties.


(** * Further properties of the slideshow *)

Section MoreProperties.

Context {Card : Type}.

Implicit Types (w : @World Card) (r : @Render Card) (p : @Props Card).
Implicit Types (e : @Event Card) (es : list (@Event Card)).
Implicit Types (m : gmap timer_id (@Timer Card)) (t : @Timer Card).
Implicit Types (cb : @Callback Card).

(** ** What one event does to index and progress *)

Lemma nextCard_cells r w :
  currentCardIndex (state (nextCard r w)) =
    (if 0 <? cards_length r
     then Z.rem (currentCardIndex (state w) + 1) (cards_length r)
     else currentCardIndex (state w)) /\
  progress (state (nextCard r w)) =
    (if 0 <? cards_length r then 0 else progress (state w)).
Proof.
  unfold nextCard, resetFlipOnNavigate.
  destruct (isFlipped (r_state r)), (wasAutoPlayingBeforeFlip (r_state r)),
    (flipTimer (r_state r)), (0 <? cards_length r); split; reflexivity.
Qed.

Lemma prevCard_cells r w :
  currentCardIndex (state (prevCard r w)) =
    (if 0 <? cards_length r
     then Z.rem (currentCardIndex (state w) - 1 + cards_length r) (cards_length r)
     else currentCardIndex (state w)) /\
  progress (state (prevCard r w)) =
    (if 0 <? cards_length r then 0 else progress (state w)).
Proof.
  unfold prevCard, resetFlipOnNavigate.
  destruct (isFlipped (r_state r)), (wasAutoPlayingBeforeFlip (r_state r)),
    (flipTimer (r_state r)), (0 <? cards_length r); split; reflexivity.
Qed.

Lemma handleCardClick_cells r w :
  currentCardIndex (state (handleCardClick r w)) = currentCardIndex (state w) /\
  progress (state (handleCardClick r w)) = progress (state w).
Proof.
  unfold handleCardClick.
  destruct (isFlipped (r_state r)), (wasAutoPlayingBeforeFlip (r_state r)),
    (isAutoPlaying (r_state r)), (flipTimer (r_state r)); split; reflexivity.
Qed.

Lemma flipBack_cells r w :
  currentCardIndex (state (flipBack r w)) = currentCardIndex (state w) /\
  progress (state (flipBack r w)) = progress (state w).
Proof.
  unfold flipBack. destruct (wasAutoPlayingBeforeFlip (r_state r)); split; reflexivity.
Qed.

Lemma nextCard_cells_ok r w : cells_step_ok w (nextCard r w).
Proof.
  destruct (nextCard_cells r w) as (Hi & Hp). split.
  - rewrite Hp. destruct (0 <? cards_length r); auto.
  - intros H0. rewrite Hi. destruct (0 <? cards_length r) eqn:E; [| exact H0].
    apply Z.ltb_lt in E. apply Z.rem_nonneg; lia.
Qed.

Lemma prevCard_cells_ok r w : cells_step_ok w (prevCard r w).
Proof.
  destruct (prevCard_cells r w) as (Hi & Hp). split.
  - rewrite Hp. destruct (0 <? cards_length r); auto.
  - intros H0. rewrite Hi. destruct (0 <? cards_length r) eqn:E; [| exact H0].
    apply Z.ltb_lt in E. apply Z.rem_nonneg; lia.
Qed.

Lemma cells_ok_same w w' :
  progress (state w') = progress (state w) ->
  currentCardIndex (state w') = currentCardIndex (state w) ->
  cells_step_ok w w'.
Proof. intros Hp Hi. split; [auto | rewrite Hi; auto]. Qed.

Lemma dispatch_cells_ok e w : cells_step_ok w (dispatch e w).
Proof.
  unfold dispatch.
  destruct e;
    try match goal with
        | |- context [if controlsRendered ?r then _ else _] =>
            destruct (controlsRendered r); [| apply cells_ok_same; reflexivity]
        end.
  - apply nextCard_cells_ok.
  - apply prevCard_cells_ok.
  - apply cells_ok_same; apply handleCardClick_cells.
  - apply cells_ok_same; reflexivity.
  - apply cells_ok_same; reflexivity.
  - apply cells_ok_same; reflexivity.
  - unfold handleTouchEnd.
    destruct (_ || _); [apply cells_ok_same; reflexivity |].
    destruct (50 <? _); [apply nextCard_cells_ok |].
    destruct (_ <? -50); [apply prevCard_cells_ok | apply cells_ok_same; reflexivity].
  - unfold fireTimer.
    destruct (timers w !! id) as [[d [| r | r] | d [| r | r]] |];
      cbn [runCallback]; try (apply cells_ok_same; reflexivity).
    + split; [right; right; reflexivity | auto].
    + apply nextCard_cells_ok.
    + apply cells_ok_same; apply flipBack_cells.
    + split; [right; right; reflexivity | auto].
    + destruct (nextCard_cells_ok r (clearTimer (Some id) w)) as (Hp & Hi).
      split; [exact Hp | exact Hi].
    + apply cells_ok_same;
        apply (flipBack_cells r (clearTimer (Some id) w)).
  - apply cells_ok_same; reflexivity.
Qed.

Lemma step_cells_ok w e : cells_step_ok w (step w e).
Proof.
  destruct (dispatch_cells_ok e w) as (Hp & Hi). unfold step. split.
  - destruct (commit_state (dispatch e w)) as [-> | ->]; [exact Hp |].
    right; left; reflexivity.
  - rewrite commit_index. exact Hi.
Qed.

Lemma progressStep_range x : 0 <= x <= 100 -> 0 <= progressStep x <= 100.
Proof.
  intros H. unfold progressStep. destruct (100 <=? x) eqn:E; [lia |].
  apply Z.leb_gt in E. lia.
Qed.

Lemma run_cells es : forall w,
  progress_in_range w -> 0 <= currentCardIndex (state w) ->
  progress_in_range (run w es) /\ 0 <= currentCardIndex (state (run w es)).
Proof.
  induction es as [| e es IH]; intros w Hp Hi; [auto |].
  simpl. destruct (step_cells_ok w e) as (Hp' & Hi').
  apply IH; [| auto].
  unfold progress_in_range in *.
  destruct Hp' as [-> | [-> | ->]]; [exact Hp | lia | apply progressStep_range, Hp].
Qed.

(** X1 — the progress bar is a percentage: in every world the component can
    reach, whatever the props, the clicks, the touches and the timers,
    [0 <= progress <= 100]. *)
Theorem progress_is_a_percentage p es :
  0 <= progress (state (run (mount p) es)) <= 100.
Proof.
  destruct (mount_state p) as (Hs & _).
  apply (run_cells es (mount p)).
  - unfold progress_in_range. rewrite Hs. simpl. lia.
  - rewrite Hs. simpl. lia.
Qed.

(** X2 — the index is never negative, in any reachable world, also after
    the card list has been replaced; and wherever it is (beyond the end of a
    shortened list, say), one press of "next" or "previous" on a non-empty
    list puts it into [0, n). *)
Theorem index_never_negative_and_repaired w e :
  reachable w ->
  0 <= currentCardIndex (state w) /\
  (0 < cards_length (render w) -> e = ClickNext \/ e = ClickPrev ->
   0 <= currentCardIndex (state (step w e)) < cards_length (render (step w e))).
Proof.
  intros (p & es & ->).
  destruct (mount_state p) as (Hs & _).
  assert (H0 : 0 <= currentCardIndex (state (run (mount p) es))).
  { apply (run_cells es (mount p)).
    - unfold progress_in_range. rewrite Hs. simpl. lia.
    - rewrite Hs. simpl. lia. }
  split; [exact H0 |].
  set (w := run (mount p) es) in *. intros Hn [-> | ->].
  - destruct (step_ClickNext_index w Hn) as (-> & ->).
    rewrite Z.rem_mod_nonneg by lia. apply Z.mod_pos_bound. exact Hn.
  - destruct (step_ClickPrev_index w Hn) as (-> & ->).
    rewrite Z.rem_mod_nonneg by lia. apply Z.mod_pos_bound. exact Hn.
Qed.

(** ** Buttons *)

(** X3 — "previous" undoes "next" and "next" undoes "previous": on a
    non-empty list, from an index in range, either pair of presses brings
    [currentCardIndex] back. *)
Theorem next_and_previous_are_inverse w :
  0 < cards_length (render w) ->
  0 <= currentCardIndex (state w) < cards_length (render w) ->
  currentCardIndex (state (run w [ClickNext; ClickPrev])) = currentCardIndex (state w) /\
  currentCardIndex (state (run w [ClickPrev; ClickNext])) = currentCardIndex (state w).
Proof.
  intros Hn Hi. cbn [run foldl].
  destruct (step_ClickNext_index w Hn) as (Hni & Hnl).
  destruct (step_ClickPrev_index w Hn) as (Hpi & Hpl).
  assert (Hn1 : 0 < cards_length (render (step w ClickNext))) by (rewrite Hnl; exact Hn).
  assert (Hn2 : 0 < cards_length (render (step w ClickPrev))) by (rewrite Hpl; exact Hn).
  destruct (step_ClickPrev_index _ Hn1) as (-> & _).
  destruct (step_ClickNext_index _ Hn2) as (-> & _).
  rewrite Hni, Hnl, Hpi, Hpl.
  set (i := currentCardIndex (state w)) in *. set (n := cards_length (render w)) in *.
  rewrite !Z.rem_mod_nonneg;
    try lia;
    try (rewrite Z.rem_mod_nonneg by lia;
         pose proof (Z.mod_pos_bound (i + 1) n Hn);
         pose proof (Z.mod_pos_bound (i - 1 + n) n Hn); lia).
  split.
  - destruct (Z.eq_dec (i + 1) n) as [E | E].
    + rewrite E, Z.mod_same by lia.
      rewrite Z.mod_small by lia. lia.
    + rewrite (Z.mod_small (i + 1) n) by lia.
      replace (i + 1 - 1 + n) with (i + 1 * n) by lia.
      rewrite Z_mod_plus_full. apply Z.mod_small. lia.
  - destruct (Z.eq_dec i 0) as [E | E].
    + rewrite E. replace (0 - 1 + n) with (n - 1) by lia.
      rewrite (Z.mod_small (n - 1) n) by lia.
      replace (n - 1 + 1) with n by lia. apply Z.mod_same. lia.
    + replace (i - 1 + n) with (i - 1 + 1 * n) by lia.
      rewrite Z_mod_plus_full. rewrite (Z.mod_small (i - 1) n) by lia.
      replace (i - 1 + 1) with i by lia. apply Z.mod_small. lia.
Qed.

(** X4 — there is always a card to show: with a non-empty list, through
    any sequence of events that keeps the props, [currentCard] is a card of
    the list, the one at [currentCardIndex]. *)
Theorem current_card_is_a_card p es :
  cards p <> [] ->
  Forall (fun e => is_NewProps e = false) es ->
  exists c, currentCard (render (run (mount p) es)) = Some c /\ c ∈ cards p.
Proof.
  intros Hne Hes.
  destruct (mount_state p) as (Hs & Hp).
  assert (Hi : index_in_range (mount p)).
  { unfold index_in_range, cards_length, render. cbn [r_props r_state].
    rewrite Hs, Hp. simpl. destruct (cards p); [congruence | simpl; lia]. }
  destruct (run_in_range es (mount p) (mount_Inv p) Hes Hi) as (Hp' & Hr).
  unfold index_in_range, cards_length, render in Hr. cbn [r_props r_state] in Hr.
  unfold currentCard, render. cbn [r_props r_state].
  rewrite Hp', Hp in *.
  destruct (_ <? 0) eqn:E; [apply Z.ltb_lt in E; lia |].
  destruct (cards p !! Z.to_nat (currentCardIndex (state (run (mount p) es))))
    as [c |] eqn:Ec.
  - exists c. split; [reflexivity |]. eapply list_elem_of_lookup_2, Ec.
  - apply lookup_ge_None in Ec. lia.
Qed.

(** ** The timers in the browser *)

Lemma navigate_unflipped_timers r w :
  isFlipped (r_state r) = false ->
  timers (nextCard r w) = timers w /\ timers (prevCard r w) = timers w.
Proof.
  intros Hf. unfold nextCard, prevCard, resetFlipOnNavigate. rewrite Hf.
  destruct (0 <? cards_length r); split; reflexivity.
Qed.

(** While an unflipped card stays unflipped, no handler touches the table of
    timers. *)
Lemma dispatch_timers_unflipped e w :
  Inv w ->
  isFlipped (state w) = false -> isFlipped (state (dispatch e w)) = false ->
  timers (dispatch e w) = timers w.
Proof.
  intros I Hf Hf'. unfold dispatch in *.
  destruct e;
    try match goal with
        | |- context [if controlsRendered ?r then _ else _] =>
            destruct (controlsRendered r); [| reflexivity]
        end; try reflexivity.
  - apply navigate_unflipped_timers. exact Hf.
  - apply navigate_unflipped_timers. exact Hf.
  - exfalso. destruct (handleCardClick_unflipped w Hf) as (Hs & _).
    cbv zeta in Hs. rewrite Hs in Hf'. discriminate.
  - unfold handleTouchEnd.
    destruct (_ || _); [reflexivity |].
    destruct (50 <? _); [apply navigate_unflipped_timers; exact Hf |].
    destruct (_ <? -50); [apply navigate_unflipped_timers; exact Hf | reflexivity].
  - unfold fireTimer.
    destruct (timers w !! id) as [[d cb | d cb] |] eqn:Et; [| | reflexivity].
    + destruct (inv_intervals _ I _ _ _ Et) as (_ & _ & _ & _ & Hc).
      destruct cb as [| r | r]; cbn [runCallback]; [reflexivity | | contradiction].
      apply navigate_unflipped_timers.
      destruct (deps_inj _ _ Hc) as (_ & _ & _ & _ & -> & _). exact Hf.
    + destruct (inv_timeouts _ I _ _ _ Et) as (_ & Hc & _). congruence.
Qed.

Lemma autoplayOn_deps r1 r2 : deps r1 = deps r2 -> autoplayOn r1 = autoplayOn r2.
Proof.
  intros H. destruct (deps_inj _ _ H) as (Ha & _ & Hn & _ & Hf & _).
  unfold autoplayOn. rewrite Ha, Hn, Hf. reflexivity.
Qed.

Lemma autoplayOn_true r :
  autoplayOn r = true <->
  isAutoPlaying (r_state r) = true /\ isFlipped (r_state r) = false /\
  0 < cards_length r.
Proof.
  unfold autoplayOn. rewrite !andb_true_iff, negb_true_iff, Z.ltb_lt. tauto.
Qed.

Lemma step_Armed w e : Inv w -> Armed w -> Armed (step w e).
Proof.
  intros I A.
  pose proof (dispatch_Handled w e I) as H.
  unfold step, commit. case_bool_decide as Hd.
  - assert (Hd' : deps (render (dispatch e w)) = deps (render w)).
    { rewrite <- Hd, (hd_mounted _ _ H). apply (inv_deps _ I). }
    intros Hon. rewrite (autoplayOn_deps _ _ Hd') in Hon.
    destruct (A Hon) as (a & b & r & Ha & Hb & Hab & Hta & Htb).
    apply autoplayOn_true in Hon as (_ & Hf & _).
    destruct (deps_inj _ _ Hd') as (_ & _ & _ & Htick & Hf' & _).
    cbn [render r_props r_state] in Htick, Hf', Hf.
    rewrite Hf in Hf'.
    exists a, b, r.
    rewrite (hd_progressRef _ _ H), (hd_intervalRef _ _ H), Htick.
    rewrite (dispatch_timers_unflipped e w I Hf Hf'). auto.
  - unfold Armed, autoplayEffect. rewrite autoplayCleanup_eq.
    set (w' := dispatch e w) in *.
    fold (autoplayOn (render w')).
    destruct (autoplayOn (render w')) eqn:Hon.
    + rewrite startAutoPlay_eq. wsimpl. intros _.
      eexists _, _, _. split; [reflexivity |]. split; [reflexivity |].
      split; [lia |]. split.
      * rewrite lookup_insert_ne by lia. apply lookup_insert_eq.
      * apply lookup_insert_eq.
    + rewrite stopAutoPlay_eq. intros Hc.
      assert (Hx : autoplayOn (render w') = true) by exact Hc. congruence.
Qed.

Lemma mount_Armed p : Armed (mount p).
Proof.
  unfold mount, autoplayEffect, Armed.
  match goal with
  | |- context [if ?c then _ else _] => fold (autoplayOn (mkRender p
      (mkState 0 (initialAutoPlay p) 0 false None None None false)));
      destruct (autoplayOn (mkRender p
      (mkState 0 (initialAutoPlay p) 0 false None None None false))) eqn:Hon
  end.
  - rewrite startAutoPlay_eq. wsimpl. intros _.
    eexists _, _, _. split; [reflexivity |]. split; [reflexivity |].
    split; [lia |]. split.
    + rewrite lookup_insert_ne by lia. apply lookup_insert_eq.
    + apply lookup_insert_eq.
  - rewrite stopAutoPlay_eq. intros Hc.
    assert (Hx : autoplayOn (mkRender p
      (mkState 0 (initialAutoPlay p) 0 false None None None false)) = true)
      by exact Hc.
    congruence.
Qed.

Lemma reachable_Armed w : reachable w -> Armed w.
Proof.
  intros (p & es & ->).
  assert (H : forall es w, Inv w -> Armed w -> Armed (run w es)).
  { clear. induction es as [| e es IH]; intros w I A; [exact A |].
    simpl. apply IH; [apply step_Inv, I | apply step_Armed; assumption]. }
  apply H; [apply mount_Inv | apply mount_Armed].
Qed.

(** X5 — autoplay runs exactly when it should.  In every reachable world:
    if the slideshow is playing an unflipped card of a non-empty list, the
    browser holds exactly two timers, the progress interval and the
    rotation interval, under the handles kept in the two refs, and the
    rotation callback closes over the present dependencies; otherwise no
    interval is live.  For a whole number of seconds with
    [0 <= tickInterval * 1000 <= 2^53], the range in which the products and
    the quotient the code computes are exact, the periods are
    [tickInterval * 1000 / 100] ms and [tickInterval * 1000] ms. *)
Theorem autoplay_armed_iff_playing w :
  reachable w ->
  (autoplayOn (render w) = true ->
   exists a b r d1 d2,
     a <> b /\ progressRef w = Some a /\ intervalRef w = Some b /\
     deps r = deps (render w) /\
     timers w = <[b := Interval d2 (CardRotation r)]> {[a := Interval d1 ProgressTick]} /\
     (0 <= tickInterval (props w) * 1000 <= 2 ^ 53 ->
      d1 = (tickInterval (props w) * 1000) / 100 /\
      d2 = tickInterval (props w) * 1000)) /\
  (autoplayOn (render w) = false ->
   forall id d cb, timers w !! id <> Some (Interval d cb)).
Proof.
  intros Hr. pose proof (reachable_Inv w Hr) as I.
  pose proof (reachable_Armed w Hr) as A. split.
  - intros Hon. destruct (A Hon) as (a & b & r & Ha & Hb & Hab & Hta & Htb).
    apply autoplayOn_true in Hon as (_ & Hf & _).
    exists a, b, r, ((tickInterval (props w) * 1000) / 100),
      (tickInterval (props w) * 1000).
    repeat (split; [assumption |]). split; [| split].
    + destruct (inv_intervals _ I _ _ _ Htb) as (_ & _ & _ & _ & Hc). exact Hc.
    + apply map_eq. intros id.
      destruct (decide (id = b)) as [-> | Hnb].
      { rewrite lookup_insert_eq. exact Htb. }
      rewrite lookup_insert_ne by congruence.
      destruct (decide (id = a)) as [-> | Hna].
      { rewrite lookup_singleton_eq. exact Hta. }
      rewrite lookup_singleton_ne by congruence.
      destruct (timers w !! id) as [[d cb | d cb] |] eqn:Et; [| | reflexivity].
      * destruct (inv_intervals _ I _ _ _ Et) as ([Hx | Hx] & _); congruence.
      * destruct (inv_timeouts _ I _ _ _ Et) as (_ & Hx & _).
        cbn [render r_state] in Hf. congruence.
    + intros _. split; reflexivity.
  - intros Hoff id d cb Et.
    destruct (inv_intervals _ I _ _ _ Et) as (_ & H1 & H2 & H3 & _).
    assert (Hon : autoplayOn (render w) = true) by (apply autoplayOn_true; auto).
    congruence.
Qed.

(** The handles an optional cell can hold. *)
Lemma size_handles (o1 o2 : option timer_id) :
  (size (from_option (fun id => {[id]}) ∅ o1 ∪ from_option (fun id => {[id]}) ∅ o2
         : gset timer_id) <= 2)%nat.
Proof.
  rewrite size_union_alt.
  assert (H : forall o : option timer_id,
            (size (from_option (fun id => {[id]}) ∅ o : gset timer_id) <= 1)%nat).
  { intros [id |]; cbn [from_option]; [rewrite size_singleton | rewrite size_empty]; lia. }
  pose proof (H o1).
  assert ((size (from_option (fun id => {[id]}) (∅ : gset timer_id) o2
                 ∖ from_option (fun id => {[id]}) ∅ o1) <= 1)%nat).
  { etransitivity; [apply subseteq_size | apply (H o2)].
    intros x Hx. apply elem_of_difference in Hx as (Hx & _). exact Hx. }
  lia.
Qed.

(** X6 — no timer leaks.  In every reachable world at most one timeout is
    pending, the 5000 ms flip-revert timer whose handle is in [flipTimer],
    and the browser never holds more than two timers of the component. *)
Theorem no_timer_leak w :
  reachable w ->
  (forall id d cb, timers w !! id = Some (Timeout d cb) ->
     flipTimer (state w) = Some id /\ d = 5000) /\
  (forall id1 id2 d1 d2 cb1 cb2,
     timers w !! id1 = Some (Timeout d1 cb1) ->
     timers w !! id2 = Some (Timeout d2 cb2) -> id1 = id2) /\
  (size (timers w) <= 2)%nat.
Proof.
  intros Hr. pose proof (reachable_Inv w Hr) as I.
  assert (H1 : forall id d cb, timers w !! id = Some (Timeout d cb) ->
                 flipTimer (state w) = Some id /\ d = 5000).
  { intros id d cb Et. destruct (inv_timeouts _ I _ _ _ Et) as (? & _ & _ & ? & _).
    auto. }
  split; [exact H1 |]. split.
  { intros id1 id2 d1 d2 cb1 cb2 E1 E2.
    destruct (H1 _ _ _ E1) as (F1 & _). destruct (H1 _ _ _ E2) as (F2 & _).
    congruence. }
  rewrite <- size_dom.
  etransitivity; [apply subseteq_size | apply (size_handles
    (if isFlipped (state w) then flipTimer (state w) else intervalRef w)
    (if isFlipped (state w) then None else progressRef w))].
  intros id Hid. apply elem_of_dom in Hid as [[d cb | d cb] Et].
  - destruct (inv_intervals _ I _ _ _ Et) as ([-> | ->] & _ & -> & _);
      cbn [from_option];
      [apply elem_of_union_l | apply elem_of_union_r]; apply elem_of_singleton;
      reflexivity.
  - destruct (inv_timeouts _ I _ _ _ Et) as (-> & -> & _).
    cbn [from_option]. apply elem_of_union_l, elem_of_singleton. reflexivity.
Qed.

(** ** Timers that fire *)

Lemma deps_intro r1 r2 :
  isAutoPlaying (r_state r1) = isAutoPlaying (r_state r2) ->
  currentCardIndex (r_state r1) = currentCardIndex (r_state r2) ->
  cards_length r1 = cards_length r2 ->
  tickInterval (r_props r1) = tickInterval (r_props r2) ->
  isFlipped (r_state r1) = isFlipped (r_state r2) ->
  flipTimer (r_state r1) = flipTimer (r_state r2) ->
  wasAutoPlayingBeforeFlip (r_state r1) = wasAutoPlayingBeforeFlip (r_state r2) ->
  deps r1 = deps r2.
Proof. unfold deps. congruence. Qed.

(** X7 — the progress ticker only moves the bar.  When the progress interval
    fires in a reachable world, the new world is the old one with
    [progress] one step further (back to 0 from 100 on): no navigation, no
    re-run of the effect, the same timers. *)
Theorem progress_tick_only_moves_the_bar w id d :
  reachable w ->
  timers w !! id = Some (Interval d ProgressTick) ->
  step w (TimerFires id) = setProgress progressStep w /\
  progress (state (step w (TimerFires id))) =
    (if 100 <=? progress (state w) then 0 else progress (state w) + 1).
Proof.
  intros Hr Et. pose proof (reachable_Inv w Hr) as I.
  assert (E : step w (TimerFires id) = setProgress progressStep w).
  { unfold step, dispatch, fireTimer. rewrite Et. cbn [runCallback].
    apply commit_id. exact (inv_deps _ I). }
  split; [exact E |]. rewrite E. reflexivity.
Qed.

(** X8 — the rotation interval is the "next" button.  When it fires in a
    reachable world the index moves one place forward modulo the number of
    cards, the bar restarts from 0 and the slideshow keeps playing an
    unflipped card; if the index changed, the interval that fired has been
    cancelled and replaced, and if it did not (a single card) the timers
    are left running. *)
Theorem rotation_is_next w id d r :
  reachable w ->
  timers w !! id = Some (Interval d (CardRotation r)) ->
  let w' := step w (TimerFires id) in
  currentCardIndex (state w') =
    Z.rem (currentCardIndex (state w) + 1) (cards_length (render w)) /\
  progress (state w') = 0 /\
  autoplayOn (render w') = true /\
  (currentCardIndex (state w') <> currentCardIndex (state w) ->
   timers w' !! id = None) /\
  (currentCardIndex (state w') = currentCardIndex (state w) ->
   timers w' = timers w).
Proof.
  intros Hr Et w'. pose proof (reachable_Inv w Hr) as I.
  destruct (inv_intervals _ I _ _ _ Et) as (Href & Ha & Hf & Hn & Hc).
  destruct (deps_inj _ _ Hc) as (_ & _ & Hlen & _ & Hfr & _).
  cbn [render r_state] in Hfr.
  assert (Hn' : 0 < cards_length r) by (rewrite Hlen; exact Hn).
  assert (E : w' = commit (nextCard r w)).
  { unfold w', step, dispatch, fireTimer. rewrite Et. reflexivity. }
  destruct (nextCard_index r w Hn') as (Hi & Hp & Hpr).
  assert (Hidx : currentCardIndex (state w') =
                 Z.rem (currentCardIndex (state w) + 1) (cards_length (render w))).
  { rewrite E, commit_index, Hi, Hlen. reflexivity. }
  assert (Hst : isAutoPlaying (state (nextCard r w)) = true /\
                isFlipped (state (nextCard r w)) = false /\
                timers (nextCard r w) = timers w /\
                next_timer (nextCard r w) = next_timer w /\
                intervalRef (nextCard r w) = intervalRef w /\
                progressRef (nextCard r w) = progressRef w /\
                mounted (nextCard r w) = mounted w).
  { unfold nextCard, resetFlipOnNavigate. rewrite Hfr, Hf.
    destruct (0 <? cards_length r); repeat split; assumption. }
  destruct Hst as (Ha' & Hf' & Ht' & Hx' & Hir & Hpr' & Hm').
  split; [exact Hidx |].
  split; [rewrite E; apply commit_progress_zero, Hp |].
  split.
  { apply autoplayOn_true. rewrite E.
    cbn [render r_state]. rewrite commit_isAutoPlaying, commit_isFlipped.
    split; [exact Ha' |]. split; [exact Hf' |].
    rewrite commit_cards_length, (cards_length_props _ _ Hpr). exact Hn. }
  split.
  - intros Hne.
    assert (Hd : deps (mounted (nextCard r w)) <> deps (render (nextCard r w))).
    { rewrite Hm', (inv_deps _ I). intros Hd.
      destruct (deps_inj _ _ Hd) as (_ & Hd' & _).
      cbn [render r_state] in Hd'. apply Hne. rewrite Hidx, <- Hlen, <- Hi. auto. }
    destruct (commit_changed _ Hd) as (_ & Hgone & _).
    rewrite E. apply Hgone.
    + rewrite Hir, Hpr'. destruct Href; auto.
    + rewrite Hx'. apply (inv_fresh _ I). eauto 6.
  - intros Heq. rewrite E, commit_id; [exact Ht' |].
    rewrite Hm', (inv_deps _ I). symmetry. apply deps_intro.
    + cbn [render r_state]. rewrite Ha', Ha. reflexivity.
    + cbn [render r_state]. rewrite <- Heq, E, commit_index. reflexivity.
    + apply (cards_length_props _ _ Hpr).
    + cbn [render r_props]. rewrite Hpr. reflexivity.
    + cbn [render r_state]. rewrite Hf', Hf. reflexivity.
    + unfold nextCard, resetFlipOnNavigate. rewrite Hfr, Hf.
      destruct (0 <? cards_length r); reflexivity.
    + unfold nextCard, resetFlipOnNavigate. rewrite Hfr, Hf.
      destruct (0 <? cards_length r); reflexivity.
Qed.

(** X9 — play/pause on a flipped card kills the flip-revert timer.  In a
    reachable world showing a flipped card, the play/pause button turns
    [isAutoPlaying] over and re-runs the effect, whose cleanup clears the
    pending timeout: afterwards the browser holds no timer at all, the
    card is still flipped with the dead handle still in [flipTimer], and no
    timer event changes anything, so the card stays flipped until it is
    clicked or the user navigates. *)
Theorem play_pause_while_flipped_cancels_revert w :
  reachable w ->
  isFlipped (state w) = true ->
  0 < cards_length (render w) ->
  let w' := step w ClickPlayPause in
  isFlipped (state w') = true /\
  flipTimer (state w') = flipTimer (state w) /\
  isAutoPlaying (state w') = negb (isAutoPlaying (state w)) /\
  timers w' = ∅ /\
  forall id, step w' (TimerFires id) = w'.
Proof.
  intros Hr Hf Hn w'. pose proof (reachable_Inv w Hr) as I.
  pose proof (step_Inv w ClickPlayPause I) as I'. fold w' in I'.
  assert (E : w' = commit (handlePlayPauseClick (render w) w))
    by (apply step_ClickPlayPause; exact Hn).
  assert (Hf' : isFlipped (state w') = true)
    by (rewrite E, commit_isFlipped; exact Hf).
  assert (Hft : flipTimer (state w') = flipTimer (state w))
    by (rewrite E, commit_flipTimer; reflexivity).
  assert (Ht : timers w' = ∅).
  { apply map_empty. intros id.
    destruct (timers w' !! id) as [[d cb | d cb] |] eqn:Et; [| | reflexivity].
    - destruct (inv_intervals _ I' _ _ _ Et) as (_ & _ & Hc & _). congruence.
    - destruct (inv_timeouts _ I' _ _ _ Et) as (Hid & _).
      set (h := handlePlayPauseClick (render w) w) in *.
      assert (Hm : mounted h = mounted w) by reflexivity.
      assert (Hx : next_timer h = next_timer w) by reflexivity.
      assert (Hd : deps (mounted h) <> deps (render h)).
      { rewrite Hm, (inv_deps _ I). intros Hd.
        destruct (deps_inj _ _ Hd) as (Hd' & _).
        change (isAutoPlaying (state w) = negb (isAutoPlaying (state w))) in Hd'.
        destruct (isAutoPlaying (state w)); discriminate. }
      destruct (commit_changed _ Hd) as (_ & Hgone & _).
      rewrite <- E in Hgone. rewrite <- Et. apply Hgone.
      + right; right. rewrite Hm.
        destruct (deps_inj _ _ (inv_deps _ I)) as (_ & _ & _ & _ & _ & -> & _).
        cbn [render r_state]. rewrite <- Hft. exact Hid.
      + rewrite Hx. apply (inv_fresh _ I). rewrite <- Hft. auto. }
  split; [exact Hf' |]. split; [exact Hft |].
  split; [rewrite E, commit_isAutoPlaying; reflexivity |].
  split; [exact Ht |].
  intros id. apply step_dead_timer; [exact I' |]. rewrite Ht. apply lookup_empty.
Qed.

(** ** Round trips *)

Lemma state_eta (s : State) :
  s = mkState (currentCardIndex s) (isAutoPlaying s) (progress s) (isFlipped s)
              (touchStart s) (touchEnd s) (flipTimer s) (wasAutoPlayingBeforeFlip s).
Proof. destruct s; reflexivity. Qed.

(** The state after a committed handler whose result must show an empty
    bar. *)
Lemma commit_state_zero w s :
  state w = s -> progress (state (commit w)) = 0 ->
  state (commit w) = resetProgress s.
Proof.
  intros <- H0. destruct (commit_state w) as [E | E]; [| exact E].
  rewrite E in *. rewrite (state_eta (state w)). unfold resetProgress.
  cbn [currentCardIndex isAutoPlaying isFlipped touchStart touchEnd flipTimer
       wasAutoPlayingBeforeFlip progress]. rewrite H0. reflexivity.
Qed.

(** The click that flips, seen from a quiescent world. *)
Lemma step_flip_state w :
  Inv w -> isFlipped (state w) = false -> 0 < cards_length (render w) ->
  state (step w ClickCard) =
    mkState (currentCardIndex (state w)) false 0 true
            (touchStart (state w)) (touchEnd (state w))
            (Some (next_timer w)) (isAutoPlaying (state w)) /\
  props (step w ClickCard) = props w.
Proof.
  intros I Hf Hn.
  pose proof (step_Inv w ClickCard I) as I1.
  destruct (handleCardClick_unflipped w Hf) as (Hs & _). cbv zeta in Hs.
  split; [| apply step_props; reflexivity].
  rewrite (step_ClickCard w Hn) in *.
  rewrite (commit_state_zero _ _ Hs); [reflexivity |].
  apply (inv_progress _ I1). left.
  rewrite commit_isAutoPlaying, Hs. reflexivity.
Qed.

Lemma handleCardClick_flipped_state r w :
  isFlipped (r_state r) = true ->
  state (handleCardClick r w) =
    mkState (currentCardIndex (state w))
            (if wasAutoPlayingBeforeFlip (r_state r) then true
             else isAutoPlaying (state w))
            (progress (state w)) false (touchStart (state w)) (touchEnd (state w))
            None false.
Proof.
  intros Hf. unfold handleCardClick. rewrite Hf.
  destruct (wasAutoPlayingBeforeFlip (r_state r)), (flipTimer (r_state r));
    reflexivity.
Qed.

Lemma flipBack_state r w :
  state (flipBack r w) =
    mkState (currentCardIndex (state w))
            (if wasAutoPlayingBeforeFlip (r_state r) then true
             else isAutoPlaying (state w))
            (progress (state w)) false (touchStart (state w)) (touchEnd (state w))
            None false.
Proof.
  unfold flipBack. destruct (wasAutoPlayingBeforeFlip (r_state r)); reflexivity.
Qed.

(** X10 — a second click undoes the flip.  From a reachable world showing
    an unflipped card, clicking the card twice restores every state cell —
    index, play state, touch cells, an empty [flipTimer], nothing
    remembered — with the bar back at 0, and leaves no timeout pending. *)
Theorem flip_twice_restores_the_state w :
  reachable w ->
  isFlipped (state w) = false ->
  0 < cards_length (render w) ->
  state (run w [ClickCard; ClickCard]) = resetProgress (state w) /\
  forall id d cb, timers (run w [ClickCard; ClickCard]) !! id <> Some (Timeout d cb).
Proof.
  intros Hr Hf Hn. pose proof (reachable_Inv w Hr) as I.
  destruct (step_flip_state w I Hf Hn) as (Hs1 & Hp1).
  cbn [run foldl]. set (w1 := step w ClickCard) in *.
  pose proof (step_Inv w ClickCard I) as I1. fold w1 in I1.
  pose proof (step_Inv w1 ClickCard I1) as I2.
  assert (Hn1 : 0 < cards_length (render w1))
    by (rewrite (cards_length_props _ _ Hp1); exact Hn).
  destruct (inv_unflipped _ I Hf) as (Hw & Hft).
  assert (Hs2 : state (handleCardClick (render w1) w1) = resetProgress (state w)).
  { rewrite handleCardClick_flipped_state
      by (cbn [render r_state]; rewrite Hs1; reflexivity).
    cbn [render r_state]. rewrite Hs1.
    cbn [currentCardIndex isAutoPlaying isFlipped touchStart touchEnd flipTimer
         wasAutoPlayingBeforeFlip progress].
    revert Hf Hw Hft. generalize (state w). intros [i ap pr fl ts te ft was].
    cbn. intros -> -> ->. destruct ap; reflexivity. }
  assert (Hf2 : isFlipped (state (step w1 ClickCard)) = false).
  { rewrite (step_ClickCard w1 Hn1), commit_isFlipped, Hs2. exact Hf. }
  split.
  - rewrite (step_ClickCard w1 Hn1).
    destruct (commit_state (handleCardClick (render w1) w1)) as [-> | ->];
      rewrite Hs2; reflexivity.
  - intros id d cb Et.
    destruct (inv_timeouts _ I2 _ _ _ Et) as (_ & Hc & _). congruence.
Qed.

(** X11 — from a paused, unflipped card the flip-revert timer is a round
    trip too: flip, let the timeout fire, and every state cell is as before
    (the slideshow is still paused). *)
Theorem flip_and_timer_from_paused w :
  reachable w ->
  isFlipped (state w) = false ->
  isAutoPlaying (state w) = false ->
  0 < cards_length (render w) ->
  state (run w [ClickCard; TimerFires (next_timer w)]) = state w.
Proof.
  intros Hr Hf Ha Hn. pose proof (reachable_Inv w Hr) as I.
  destruct (step_flip_state w I Hf Hn) as (Hs1 & Hp1).
  destruct (flip_then_timer w I Hf Hn) as ((_ & _ & _ & _ & _ & T1 & _) & _).
  cbn [run foldl]. set (w1 := step w ClickCard) in *.
  destruct (inv_unflipped _ I Hf) as (Hw & Hft).
  assert (H0 : progress (state w) = 0) by (apply (inv_progress _ I); auto).
  assert (E2 : step w1 (TimerFires (next_timer w)) =
               commit (flipBack (render w) (clearTimer (Some (next_timer w)) w1))).
  { unfold step, dispatch, fireTimer. rewrite T1. reflexivity. }
  assert (Hs2 : state (flipBack (render w) (clearTimer (Some (next_timer w)) w1))
                = state w).
  { rewrite flipBack_state. cbn [render r_state clearTimer state]. rewrite Hs1.
    cbn [currentCardIndex isAutoPlaying isFlipped touchStart touchEnd flipTimer
         wasAutoPlayingBeforeFlip progress].
    revert Hf Hw Hft Ha H0. generalize (state w). intros [i ap pr fl ts te ft was].
    cbn. intros -> -> -> -> ->. reflexivity. }
  rewrite E2.
  destruct (commit_state (flipBack (render w) (clearTimer (Some (next_timer w)) w1)))
    as [-> | ->]; rewrite Hs2; [reflexivity |].
  revert H0. generalize (state w). intros [i ap pr fl ts te ft was].
  cbn. intros ->. reflexivity.
Qed.

(** The play/pause button, seen from a quiescent world. *)
Lemma step_play_pause_state w :
  Inv w -> 0 < cards_length (render w) ->
  state (step w ClickPlayPause) =
    mkState (currentCardIndex (state w)) (negb (isAutoPlaying (state w))) 0
            (isFlipped (state w)) (touchStart (state w)) (touchEnd (state w))
            (flipTimer (state w)) (wasAutoPlayingBeforeFlip (state w)) /\
  props (step w ClickPlayPause) = props w.
Proof.
  intros I Hn. split; [| apply step_props; reflexivity].
  rewrite (step_ClickPlayPause w Hn).
  set (h := handlePlayPauseClick (render w) w).
  assert (Hm : mounted h = mounted w) by reflexivity.
  assert (Hd : deps (mounted h) <> deps (render h)).
  { rewrite Hm, (inv_deps _ I). intros Hd.
    destruct (deps_inj _ _ Hd) as (Hd' & _).
    change (isAutoPlaying (state w) = negb (isAutoPlaying (state w))) in Hd'.
    destruct (isAutoPlaying (state w)); discriminate. }
  destruct (commit_changed _ Hd) as (H0 & _).
  rewrite (commit_state_zero h (state h) eq_refl H0). reflexivity.
Qed.

(** X12 — play/pause twice is the identity on the state: in a reachable
    world with a non-empty list, pressing the button twice restores play
    state and every other cell, with the bar back at 0. *)
Theorem play_pause_twice_restores_the_state w :
  reachable w ->
  0 < cards_length (render w) ->
  isAutoPlaying (state (step w ClickPlayPause)) = negb (isAutoPlaying (state w)) /\
  state (run w [ClickPlayPause; ClickPlayPause]) = resetProgress (state w).
Proof.
  intros Hr Hn. pose proof (reachable_Inv w Hr) as I.
  destruct (step_play_pause_state w I Hn) as (Hs1 & Hp1).
  split; [rewrite Hs1; reflexivity |].
  cbn [run foldl]. set (w1 := step w ClickPlayPause) in *.
  pose proof (step_Inv w ClickPlayPause I) as I1. fold w1 in I1.
  assert (Hn1 : 0 < cards_length (render w1))
    by (rewrite (cards_length_props _ _ Hp1); exact Hn).
  destruct (step_play_pause_state w1 I1 Hn1) as (-> & _).
  rewrite Hs1. cbn [currentCardIndex isAutoPlaying isFlipped touchStart touchEnd
                    flipTimer wasAutoPlayingBeforeFlip progress].
  rewrite negb_involutive. reflexivity.
Qed.

(** ** Gestures *)

(** Touch-start and touch-move write touch cells only: no re-run of the
    effect follows. *)
Lemma step_touch w x :
  Inv w -> 0 < cards_length (render w) ->
  step w (TouchStart x) = handleTouchStart x w /\
  step w (TouchMove x) = handleTouchMove x w.
Proof.
  intros I Hn. apply controlsRendered_length in Hn.
  unfold step, dispatch. rewrite Hn.
  split; apply commit_id; exact (inv_deps _ I).
Qed.

(** X13 — a tap does not navigate.  Touch-start followed by touch-end with
    no move in between leaves the world exactly as touch-start left it,
    whatever coordinates an earlier gesture had recorded: touch-start
    clears the end coordinate and touch-end then returns at its guard. *)
Theorem tap_does_not_navigate w x :
  reachable w ->
  0 < cards_length (render w) ->
  run w [TouchStart x; TouchEnd] = run w [TouchStart x] /\
  currentCardIndex (state (run w [TouchStart x; TouchEnd])) = currentCardIndex (state w).
Proof.
  intros Hr Hn. pose proof (reachable_Inv w Hr) as I.
  destruct (step_touch w x I Hn) as (E1 & _).
  cbn [run foldl]. rewrite E1.
  assert (I1 : Inv (handleTouchStart x w)) by (rewrite <- E1; apply step_Inv, I).
  assert (E : step (handleTouchStart x w) TouchEnd = handleTouchStart x w).
  { unfold step, dispatch.
    replace (controlsRendered (render (handleTouchStart x w)))
      with (controlsRendered (render w)) by reflexivity.
    apply controlsRendered_length in Hn. rewrite Hn.
    rewrite handleTouchEnd_guard by (right; reflexivity).
    apply commit_id, (inv_deps _ I1). }
  rewrite E. split; reflexivity.
Qed.

(** X14 — a swipe is a button press.  In a reachable world with a
    non-empty list, a gesture whose start and last-move coordinates are
    both non-zero acts at touch-end exactly like the "next" button when
    start minus end exceeds 50, like the "previous" button when it is below
    -50, and does nothing otherwise; only the last move counts. *)
Theorem swipe_is_a_button_press w x y :
  reachable w ->
  0 < cards_length (render w) ->
  x <> 0 -> y <> 0 ->
  let g := run w [TouchStart x; TouchMove y] in
  run w [TouchStart x; TouchMove y; TouchEnd] =
    (if 50 <? x - y then step g ClickNext
     else if x - y <? -50 then step g ClickPrev
     else g) /\
  forall y0, run w [TouchStart x; TouchMove y0; TouchMove y] = g.
Proof.
  intros Hr Hn Hx Hy g. pose proof (reachable_Inv w Hr) as I.
  unfold g. clear g. cbn [run foldl].
  destruct (step_touch w x I Hn) as (E1 & _). rewrite E1.
  set (w1 := handleTouchStart x w) in *.
  assert (I1 : Inv w1) by (rewrite <- E1; apply step_Inv, I).
  assert (Hn1 : 0 < cards_length (render w1)) by exact Hn.
  destruct (step_touch w1 y I1 Hn1) as (_ & E2). rewrite E2.
  set (g := handleTouchMove y w1) in *.
  assert (Ig : Inv g) by (rewrite <- E2; apply step_Inv, I1).
  assert (Hng : 0 < cards_length (render g)) by exact Hn.
  split.
  - rewrite (step_ClickNext g Hng), (step_ClickPrev g Hng).
    unfold step at 1. unfold dispatch.
    apply controlsRendered_length in Hng as Hc. rewrite Hc.
    rewrite (handleTouchEnd_threshold (render g) g x y);
      [| reflexivity | reflexivity | exact Hx | exact Hy].
    destruct (50 <? x - y); [reflexivity |].
    destruct (x - y <? -50); [reflexivity |].
    apply commit_id, (inv_deps _ Ig).
  - intros y0.
    destruct (step_touch w1 y0 I1 Hn1) as (_ & E3). rewrite E3.
    assert (I3 : Inv (handleTouchMove y0 w1)) by (rewrite <- E3; apply step_Inv, I1).
    assert (Hn3 : 0 < cards_length (render (handleTouchMove y0 w1))) by exact Hn.
    destruct (step_touch (handleTouchMove y0 w1) y I3 Hn3) as (_ & ->).
    reflexivity.
Qed.

End MoreProperties.

(** * The activity list of Finitude *)

Section ActivityList.
Import Finitude.

Context {Fields Counted Quote : Type}.

Implicit Types (s : @Cells Fields Quote) (a u : @Activity Fields)
  (l : list (@Activity Fields)).

Lemma filter_id_absent l (i : Z) :
  i ∉ id <$> l -> filter (fun act => id act <> i) l = l.
Proof.
  induction l as [| b l IH]; [reflexivity |].
  rewrite fmap_cons, not_elem_of_cons. intros [Hb Hl].
  rewrite filter_cons_True by congruence. f_equal. exact (IH Hl).
Qed.

Lemma save_id_absent l u :
  id u ∉ id <$> l ->
  ((fun act => if id act =? id u then u else act) <$> l) = l.
Proof.
  induction l as [| b l IH]; [reflexivity |].
  rewrite fmap_cons, not_elem_of_cons. intros [Hb Hl].
  cbn [fmap list_fmap]. rewrite IH by exact Hl.
  destruct (Z.eqb_spec (id b) (id u)); [congruence | reflexivity].
Qed.

Lemma save_ids l u :
  id <$> (((fun act => if id act =? id u then u else act) <$> l)) = id <$> l.
Proof.
  induction l as [| b l IH]; [reflexivity |].
  cbn [fmap list_fmap]. rewrite IH. f_equal.
  destruct (Z.eqb_spec (id b) (id u)); congruence.
Qed.

Lemma filter_ids l (i : Z) :
  id <$> filter (fun act => id act <> i) l = filter (fun j => j <> i) (id <$> l).
Proof.
  induction l as [| b l IH]; [reflexivity |].
  rewrite fmap_cons. destruct (decide (id b = i)) as [E | E].
  - rewrite !filter_cons_False by (intros H; apply H; exact E). exact IH.
  - rewrite !filter_cons_True by exact E. rewrite fmap_cons. f_equal. exact IH.
Qed.

Lemma save_at l u (k : nat) a :
  NoDup (id <$> l) -> l !! k = Some a -> id u = id a ->
  ((fun act => if id act =? id u then u else act) <$> l) = <[k := u]> l.
Proof.
  revert k. induction l as [| b l IH]; intros k Hnd Hk Hu; [discriminate |].
  rewrite fmap_cons in Hnd. apply NoDup_cons in Hnd as [Hb Hnd].
  destruct k as [| k]; cbn [fmap list_fmap].
  - injection Hk as ->. rewrite Hu, Z.eqb_refl. cbn. f_equal.
    rewrite <- Hu. apply save_id_absent. rewrite Hu. exact Hb.
  - cbn in Hk. cbn. rewrite (IH k Hnd Hk Hu).
    destruct (Z.eqb_spec (id b) (id u)) as [E | E]; [| reflexivity].
    exfalso. apply Hb. rewrite E, Hu.
    apply list_elem_of_fmap. exists a. split; [reflexivity |].
    apply list_elem_of_lookup. exists k. exact Hk.
Qed.

Lemma delete_at l (k : nat) a :
  NoDup (id <$> l) -> l !! k = Some a ->
  filter (fun act => id act <> id a) l = delete k l.
Proof.
  revert k. induction l as [| b l IH]; intros k Hnd Hk; [discriminate |].
  rewrite fmap_cons in Hnd. apply NoDup_cons in Hnd as [Hb Hnd].
  destruct k as [| k].
  - injection Hk as ->. rewrite filter_cons_False by (intros H; apply H; reflexivity).
    cbn. apply filter_id_absent. exact Hb.
  - cbn in Hk. rewrite filter_cons_True.
    + cbn. f_equal. exact (IH k Hnd Hk).
    + intros E. apply Hb. rewrite E.
      apply list_elem_of_fmap. exists a. split; [reflexivity |].
      apply list_elem_of_lookup. exists k. exact Hk.
Qed.

(** X15 — ids stay distinct.  If the activities have pairwise distinct
    ids, they still have after an edit, a save and a delete; after "add"
    they have exactly when the timestamp [Date.now()] is not yet the id of
    an activity. *)
Theorem activity_ids_stay_distinct s (e : @Edit Fields) :
  NoDup (ids s) ->
  match e with
  | AddActivity now _ => NoDup (ids (edit s e)) <-> now ∉ ids s
  | _ => NoDup (ids (edit s e))
  end.
Proof.
  intros Hnd. destruct e as [a | u | i | now f]; unfold ids in *; cbn [edit].
  - exact Hnd.
  - cbn. rewrite save_ids. exact Hnd.
  - cbn. rewrite filter_ids. apply NoDup_filter. exact Hnd.
  - cbn. rewrite fmap_app. cbn. split.
    + intros H. apply NoDup_app in H as (_ & H & _).
      intros Hin. apply (H now Hin). apply list_elem_of_singleton. reflexivity.
    + intros Hfresh. apply NoDup_app. split; [exact Hnd |]. split.
      * intros x Hx Hx'. apply list_elem_of_singleton in Hx'. subst x. exact (Hfresh Hx).
      * apply NoDup_singleton.
Qed.

(** X16 — saving from the edit modal replaces the edited activity in
    place.  With distinct ids, editing the activity at position [k] and
    saving the form writes the new fields at position [k] and nowhere
    else, keeps every id and the length of the list, and closes the
    modal. *)
Theorem save_replaces_the_edited_activity s (k : nat) a (edited : Fields) :
  NoDup (ids s) ->
  activities s !! k = Some a ->
  let s1 := handleActivityEdit a s in
  let s2 := handleActivitySave (handleSave a edited) s1 in
  editingActivity s1 = Some a /\
  activities s2 = <[k := handleSave a edited]> (activities s) /\
  ids s2 = ids s /\
  editingActivity s2 = None.
Proof.
  intros Hnd Hk s1 s2. split; [reflexivity |].
  assert (E : activities s2 = <[k := handleSave a edited]> (activities s)).
  { unfold s2, s1. cbn [handleActivitySave handleActivityEdit activities].
    apply (save_at _ _ k a); [exact Hnd | exact Hk | reflexivity]. }
  split; [exact E |]. split; [| reflexivity].
  unfold ids, s2, s1. cbn [handleActivitySave handleActivityEdit activities].
  apply save_ids.
Qed.

(** X17 — saving an activity whose id is not in the list changes no
    activity: the edit is dropped without a trace, the list is as it was
    and the modal closes. *)
Theorem save_of_an_unknown_id_is_lost s u :
  id u ∉ ids s ->
  activities (handleActivitySave u s) = activities s /\
  editingActivity (handleActivitySave u s) = None.
Proof.
  intros H. split; [| reflexivity].
  cbn [handleActivitySave activities]. apply save_id_absent. exact H.
Qed.

(** X18 — delete removes exactly the activity that was clicked.  With
    distinct ids, deleting the id of the activity at position [k] removes
    position [k] and leaves the others in their order; deleting an id that
    no activity has changes nothing. *)
Theorem delete_removes_exactly_one s (k : nat) a :
  NoDup (ids s) ->
  activities s !! k = Some a ->
  activities (handleActivityDelete (id a) s) = delete k (activities s) /\
  S (length (activities (handleActivityDelete (id a) s))) = length (activities s) /\
  (id a ∉ ids (handleActivityDelete (id a) s)) /\
  forall j, j ∉ ids s -> activities (handleActivityDelete j s) = activities s.
Proof.
  intros Hnd Hk.
  assert (E : activities (handleActivityDelete (id a) s) = delete k (activities s)).
  { cbn [handleActivityDelete activities]. apply delete_at; [exact Hnd | exact Hk]. }
  split; [exact E |]. split; [| split].
  - rewrite E, length_delete by (exists a; exact Hk).
    apply lookup_lt_Some in Hk. lia.
  - unfold ids. cbn [handleActivityDelete activities]. rewrite filter_ids.
    intros H. apply list_elem_of_filter in H as [H _]. apply H. reflexivity.
  - intros j Hj. cbn [handleActivityDelete activities]. apply filter_id_absent. exact Hj.
Qed.

(** X19 — "add" and its undo.  When the timestamp is fresh, adding an
    activity and deleting it again restores the list, and saving the form
    of the new activity rewrites the last entry only.  When the timestamp
    is already the id of an activity, the delete takes that older activity
    away as well. *)
Theorem add_then_delete s (now : Z) (newFields edited : Fields) :
  let s1 := handleAddActivity now newFields s in
  editingActivity s1 = Some (mkActivity now newFields) /\
  (now ∉ ids s ->
   activities (handleActivityDelete now s1) = activities s /\
   activities (handleActivitySave (handleSave (mkActivity now newFields) edited) s1)
     = activities s ++ [mkActivity now edited]) /\
  (now ∈ ids s ->
   (length (activities (handleActivityDelete now s1)) < length (activities s))%nat).
Proof.
  intros s1. split; [reflexivity |]. split.
  - intros Hfresh. split.
    + unfold s1. cbn [handleAddActivity handleActivityDelete activities].
      rewrite filter_app, filter_id_absent by exact Hfresh.
      rewrite filter_cons_False by (intros H; apply H; reflexivity).
      rewrite filter_nil. apply app_nil_r.
    + unfold s1. cbn [handleAddActivity handleActivitySave activities handleSave id].
      rewrite fmap_app. f_equal.
      * apply (save_id_absent _ (mkActivity now edited)). exact Hfresh.
      * cbn. rewrite Z.eqb_refl. reflexivity.
  - intros Hin. unfold s1. cbn [handleAddActivity handleActivityDelete activities].
    rewrite filter_app. rewrite filter_cons_False by (intros H; apply H; reflexivity).
    rewrite filter_nil, app_nil_r.
    unfold ids in Hin. apply list_elem_of_fmap in Hin as (b & Hb & Hin).
    apply list_elem_of_lookup in Hin as (k & Hk).
    clear s1. generalize dependent k. generalize (activities s) as l.
    induction l as [| c l IH]; intros k Hk; [discriminate |].
    destruct k as [| k].
    + injection Hk as ->. rewrite filter_cons_False by (intros H; apply H; congruence).
      cbn [length]. pose proof (length_filter (fun act => id act <> now) l). lia.
    + cbn in Hk. specialize (IH k Hk).
      destruct (decide (id c = now)) as [E | E].
      * rewrite filter_cons_False by (intros H; apply H; exact E). cbn [length]. lia.
      * rewrite filter_cons_True by exact E. cbn [length]. lia.
Qed.

(** X20 — the default activities get the ids 1, 2, ..., n: the activity at
    position [k] has id [k + 1].  When nothing is stored, or the stored
    list is empty, the mount effect takes the defaults; so, however it
    shuffles them, the ids are distinct, and a timestamp beyond [n] is a
    fresh id. *)
Theorem default_activities_have_distinct_ids {NewActivity : Type}
    (legacyFields : NewActivity -> Fields) (defaults : list NewActivity)
    (userActivities : option (list (@Activity Fields)))
    (shuffled : list (@Activity Fields)) :
  userActivities = None \/ userActivities = Some [] ->
  shuffled ≡ₚ activitiesToSet userActivities
                (convertActivitiesToLegacyFormat legacyFields defaults) ->
  (forall k n, defaults !! k = Some n ->
     convertActivitiesToLegacyFormat legacyFields defaults !! k
       = Some (mkActivity (Z.of_nat k + 1) (legacyFields n))) /\
  length shuffled = length defaults /\
  NoDup (id <$> shuffled) /\
  forall now, Z.of_nat (length defaults) < now -> now ∉ id <$> shuffled.
Proof.
  intros Hu Hp.
  assert (Hp' : shuffled ≡ₚ convertActivitiesToLegacyFormat legacyFields defaults).
  { destruct Hu as [-> | ->]; exact Hp. }
  clear Hp Hu. rename Hp' into Hp.
  assert (Hk : forall k n, defaults !! k = Some n ->
     convertActivitiesToLegacyFormat legacyFields defaults !! k
       = Some (mkActivity (Z.of_nat k + 1) (legacyFields n))).
  { intros k n Hk. unfold convertActivitiesToLegacyFormat.
    rewrite list_lookup_imap, Hk. reflexivity. }
  assert (Hid : forall j, j ∈ id <$> convertActivitiesToLegacyFormat legacyFields defaults ->
                 1 <= j <= Z.of_nat (length defaults)).
  { intros j Hj. apply list_elem_of_fmap in Hj as (b & -> & Hb).
    apply list_elem_of_lookup in Hb as (k & Hb).
    unfold convertActivitiesToLegacyFormat in Hb. rewrite list_lookup_imap in Hb.
    destruct (defaults !! k) as [n |] eqn:E; [| discriminate].
    injection Hb as <-. cbn. apply lookup_lt_Some in E. lia. }
  split; [exact Hk |]. split; [| split].
  - rewrite Hp. unfold convertActivitiesToLegacyFormat. apply length_imap.
  - rewrite Hp. apply NoDup_alt. intros i j x Hi Hj.
    rewrite list_lookup_fmap in Hi, Hj.
    unfold convertActivitiesToLegacyFormat in Hi, Hj.
    rewrite list_lookup_imap in Hi, Hj.
    destruct (defaults !! i); [| discriminate]. destruct (defaults !! j); [| discriminate].
    cbn in Hi, Hj. injection Hi as Hi. injection Hj as Hj. lia.
  - intros now Hnow Hin. rewrite Hp in Hin. apply Hid in Hin. lia.
Qed.

(** X21 — deleting from the list never moves [currentCard].  With distinct
    ids and more than one activity, deleting any activity while the main
    screen's current card is the last one leaves [currentCard] one past the
    end: the list is not empty, so the views are rendered, and the
    [currentActivity] they dereference is [undefined]. *)
Theorem delete_leaves_the_current_card_dangling
    (withCount : @Activity Fields -> Counted) s (k : nat) a :
  NoDup (ids s) ->
  activities s !! k = Some a ->
  (1 < length (activities s))%nat ->
  currentCard s = Z.of_nat (length (activities s)) - 1 ->
  let s' := handleActivityDelete (id a) s in
  is_Some (currentActivity withCount s) /\
  currentCard s' = currentCard s /\
  showsLoading withCount s' = false /\
  currentActivity withCount s' = None.
Proof.
  intros Hnd Hk Hlen Hcur s'.
  assert (El : S (length (activities s')) = length (activities s)).
  { unfold s'. cbn [handleActivityDelete activities].
    rewrite (delete_at _ k a Hnd Hk), length_delete by (exists a; exact Hk).
    apply lookup_lt_Some in Hk. lia. }
  split; [| split; [reflexivity | split]].
  - unfold currentActivity, cardsWithCounts. rewrite Hcur.
    destruct (Z.ltb_spec (Z.of_nat (length (activities s)) - 1) 0); [lia |].
    apply lookup_lt_is_Some. rewrite length_fmap. lia.
  - unfold showsLoading, cardsWithCounts. rewrite length_fmap.
    apply bool_decide_eq_false. lia.
  - unfold currentActivity, cardsWithCounts.
    change (currentCard s') with (currentCard s). rewrite Hcur.
    destruct (Z.ltb_spec (Z.of_nat (length (activities s)) - 1) 0); [reflexivity |].
    apply lookup_ge_None. rewrite length_fmap. lia.
Qed.

Lemma navigateToNextCard_step (withCount : @Activity Fields -> Counted)
    (quotes : list Quote) (shouldShowQuote : bool) (randomIndex : Z) s :
  activities s <> [] ->
  0 <= currentCard s < Z.of_nat (length (activities s)) ->
  let s1 := navigateToNextCard withCount quotes shouldShowQuote randomIndex s in
  activities s1 = activities s /\
  progress s1 = 0 /\
  currentCard s1 =
    (if shouldShowQuote then currentCard s
     else (currentCard s + 1) mod Z.of_nat (length (activities s))) /\
  currentCardType s1 = (if shouldShowQuote then "quote" else "activity") /\
  currentQuote s1 =
    (if shouldShowQuote then getRandomQuote quotes randomIndex else currentQuote s).
Proof.
  intros Hne Hr s1. unfold s1, navigateToNextCard, cardsWithCounts.
  rewrite length_fmap.
  destruct (Z.ltb_spec 0 (Z.of_nat (length (activities s)))) as [Hn | Hn]; [| lia].
  destruct shouldShowQuote; cbn [activities progress currentCard currentCardType currentQuote].
  - repeat split.
  - repeat split. apply Z.rem_mod_nonneg; lia.
Qed.

(** X22 — the rotation of Finitude, which draws a quote or the next
    activity.  Through any sequence of draws on a non-empty list, from an
    index in range: the index is the start plus the number of activity
    draws, modulo the number of activities (a quote draw leaves it where
    it is), the list is untouched, and the bar is back at 0; the last draw
    decides what is shown, a quote (the one [getRandomQuote] picked) or
    the activity. *)
Theorem rotation_with_quotes (withCount : @Activity Fields -> Counted)
    (quotes : list Quote) s (draws : list (bool * Z)) :
  activities s <> [] ->
  0 <= currentCard s < Z.of_nat (length (activities s)) ->
  let rotate := foldl (fun s d => navigateToNextCard withCount quotes d.1 d.2 s) in
  let s' := rotate s draws in
  let shown := length (filter (fun d => d.1 = false) draws) in
  activities s' = activities s /\
  currentCard s' = (currentCard s + Z.of_nat shown) mod Z.of_nat (length (activities s)) /\
  (draws <> [] -> progress s' = 0) /\
  forall (shouldShowQuote : bool) (randomIndex : Z),
    let s'' := rotate s (draws ++ [(shouldShowQuote, randomIndex)]) in
    if shouldShowQuote
    then currentCardType s'' = "quote" /\
         currentQuote s'' = getRandomQuote quotes randomIndex /\
         currentCard s'' = currentCard s'
    else currentCardType s'' = "activity" /\ currentQuote s'' = currentQuote s'.
Proof.
  intros Hne Hr rotate s' shown.
  assert (H : activities s' = activities s /\
              currentCard s' =
                (currentCard s + Z.of_nat shown) mod Z.of_nat (length (activities s)) /\
              (draws <> [] -> progress s' = 0)).
  { unfold s', shown, rotate. clear s' shown rotate.
    revert s Hne Hr. induction draws as [| [b i] ds IH]; intros s Hne Hr.
    - cbn. rewrite Z.add_0_r, Z.mod_small by lia. repeat split. congruence.
    - cbn [foldl fst snd].
      destruct (navigateToNextCard_step withCount quotes b i s Hne Hr)
        as (Ha & Hp & Hc & _).
      set (s1 := navigateToNextCard withCount quotes b i s) in *.
      assert (Hne1 : activities s1 <> []) by (rewrite Ha; exact Hne).
      assert (Hr1 : 0 <= currentCard s1 < Z.of_nat (length (activities s1))).
      { rewrite Ha, Hc. destruct b; [exact Hr |]. apply Z.mod_pos_bound. lia. }
      destruct (IH s1 Hne1 Hr1) as (IHa & IHc & IHp).
      split; [rewrite IHa; exact Ha |]. split.
      + rewrite IHc, Ha, Hc. destruct b.
        * rewrite filter_cons_False by (cbn; discriminate). reflexivity.
        * rewrite filter_cons_True by reflexivity. cbn [length].
          rewrite Z.add_mod_idemp_l by lia. f_equal. lia.
      + intros _. destruct ds as [| d ds]; [exact Hp |].
        apply IHp. discriminate. }
  destruct H as (Ha & Hc & Hp).
  split; [exact Ha |]. split; [exact Hc |]. split; [exact Hp |].
  intros b i s''. unfold s'', rotate. rewrite foldl_app. cbn [foldl fst snd].
  fold rotate. fold s'.
  assert (Hne' : activities s' <> []) by (rewrite Ha; exact Hne).
  assert (Hr' : 0 <= currentCard s' < Z.of_nat (length (activities s'))).
  { rewrite Ha, Hc. apply Z.mod_pos_bound. lia. }
  destruct (navigateToNextCard_step withCount quotes b i s' Hne' Hr')
    as (_ & _ & Hc' & Ht' & Hq').
  destruct b; auto.
Qed.

End ActivityList.

(** * The phrase adapter *)

Section PhraseAdapter.
Import Translation.

Context {Metadata Raw JSX : Type}.
Context (front back : Options -> @Phrase Metadata Raw -> JSX).

Implicit Types (filters : Filters) (c l wanted : option string).

Lemma rejects_falsy wanted (value : string) :
  truthy wanted = false -> rejects wanted value = false.
Proof. unfold rejects. intros ->. reflexivity. Qed.

Lemma rejects_truthy (w value : string) :
  w <> "" -> rejects (Some w) value = negb (bool_decide (value = w)).
Proof.
  intros Hw. unfold rejects, truthy.
  destruct (String.eqb_spec w ""); [contradiction |]. cbn [negb andb].
  f_equal. apply bool_decide_ext. split; congruence.
Qed.

Lemma passes_split {Content} c l1 l2 (phrase : @Phrase Metadata Content) :
  passes (mkFilters c l1 l2) phrase = true <->
  (passes (mkFilters None None l2) phrase = true /\
   passes (mkFilters None l1 None) phrase = true) /\
  passes (mkFilters c None None) phrase = true.
Proof.
  unfold passes. cbn [filters_category filters_language1 filters_language2].
  change (rejects None) with (fun _ : string => false). cbn beta.
  destruct (rejects c (category phrase)), (rejects l1 (language1 phrase)),
    (rejects l2 (language2 phrase)); intuition congruence.
Qed.

Lemma passes_no_filter {Content} c l1 l2 (phrase : @Phrase Metadata Content) :
  truthy c = false -> truthy l1 = false -> truthy l2 = false ->
  passes (mkFilters c l1 l2) phrase = true.
Proof.
  intros Hc H1 H2. unfold passes.
  cbn [filters_category filters_language1 filters_language2].
  rewrite !rejects_falsy by assumption. reflexivity.
Qed.

Lemma filter_all {A} (P : A -> Prop) `{forall x, Decision (P x)} (l : list A) :
  (forall x, x ∈ l -> P x) -> filter P l = l.
Proof.
  induction l as [| x l IH]; intros HP; [reflexivity |].
  rewrite filter_cons_True by (apply HP; left).
  f_equal. apply IH. intros y Hy. apply HP. right. exact Hy.
Qed.

(** X23 — the filters are independent and cumulative.  Filtering by
    category, first language and second language at once is filtering by
    each in turn; filtering twice by the same criteria is filtering once;
    a criterion that is absent or the empty string does not filter, so with
    none the phrases come back as they are; the result keeps the order of
    the phrases. *)
Theorem filters_compose {Content} (phrases : list (@Phrase Metadata Content)) c l1 l2 :
  filterVeganPhrases phrases (mkFilters c l1 l2) =
    filterVeganPhrases
      (filterVeganPhrases (filterVeganPhrases phrases (mkFilters c None None))
                          (mkFilters None l1 None))
      (mkFilters None None l2) /\
  filterVeganPhrases (filterVeganPhrases phrases (mkFilters c l1 l2)) (mkFilters c l1 l2)
    = filterVeganPhrases phrases (mkFilters c l1 l2) /\
  (truthy c = false -> truthy l1 = false -> truthy l2 = false ->
   filterVeganPhrases phrases (mkFilters c l1 l2) = phrases) /\
  filterVeganPhrases phrases (mkFilters c l1 l2) `sublist_of` phrases.
Proof.
  unfold filterVeganPhrases. split; [| split; [| split]].
  - rewrite !list_filter_filter. apply list_filter_iff.
    intros phrase. apply passes_split.
  - rewrite list_filter_filter. apply list_filter_iff. intros phrase. tauto.
  - intros Hc H1 H2. apply filter_all. intros phrase _.
    apply passes_no_filter; assumption.
  - apply sublist_filter.
Qed.

Lemma setOf_elem (xs : list string) x : x ∈ setOf xs <-> x ∈ xs.
Proof. unfold setOf. rewrite elem_of_reverse, elem_of_remove_dups, elem_of_reverse. tauto. Qed.

Lemma setOf_NoDup (xs : list string) : NoDup (setOf xs).
Proof. unfold setOf. rewrite reverse_Permutation. apply NoDup_remove_dups. Qed.

Lemma sort_setOf_elem (xs : list string) x : x ∈ sort (setOf xs) <-> x ∈ xs.
Proof. unfold sort. rewrite merge_sort_Permutation. apply setOf_elem. Qed.

Lemma sort_setOf (xs : list string) :
  StronglySorted String.le (sort (setOf xs)) /\
  NoDup (sort (setOf xs)) /\
  (forall x, x ∈ sort (setOf xs) <-> x ∈ xs) /\
  (forall ys, (forall x, x ∈ xs <-> x ∈ ys) -> sort (setOf xs) = sort (setOf ys)).
Proof.
  pose proof sort_setOf_elem as Hel.
  assert (Hnd : forall zs, NoDup (sort (setOf zs))).
  { intros zs. unfold sort. rewrite merge_sort_Permutation. apply setOf_NoDup. }
  split; [| split; [| split]].
  - unfold sort. apply StronglySorted_merge_sort; apply _.
  - apply Hnd.
  - apply Hel.
  - intros ys Hxy. apply (StronglySorted_unique String.le).
    + unfold sort. apply StronglySorted_merge_sort; apply _.
    + unfold sort. apply StronglySorted_merge_sort; apply _.
    + apply NoDup_Permutation; [apply Hnd | apply Hnd |].
      intros x. rewrite !Hel. apply Hxy.
Qed.

(** X24 — the category dropdown.  [getAvailableCategories] lists exactly
    the categories that occur in the phrases, each once, in ascending
    order; the list depends on which categories occur, not on the order
    or the number of the phrases. *)
Theorem available_categories_sorted_unique {Content}
    (phrases phrases' : list (@Phrase Metadata Content)) :
  StronglySorted String.le (getAvailableCategories phrases) /\
  NoDup (getAvailableCategories phrases) /\
  (forall x, x ∈ getAvailableCategories phrases <->
             exists phrase, phrase ∈ phrases /\ category phrase = x) /\
  ((forall x, x ∈ category <$> phrases <-> x ∈ category <$> phrases') ->
   getAvailableCategories phrases = getAvailableCategories phrases').
Proof.
  unfold getAvailableCategories.
  destruct (sort_setOf (category <$> phrases)) as (H1 & H2 & H3 & H4).
  split; [exact H1 |]. split; [exact H2 |]. split.
  - intros x. rewrite H3, list_elem_of_fmap. split; intros (p & Hp & Hq); exists p; auto.
  - intros H. apply H4. exact H.
Qed.

(** X25 — the language dropdown.  [getAvailableLanguages] with position 1
    lists the first languages, with any other position the second
    languages: exactly those that occur, each once, in ascending order. *)
Theorem available_languages_sorted_unique {Content}
    (phrases : list (@Phrase Metadata Content)) (position : Z) :
  let key := if bool_decide (position = 1) then language1 else language2 in
  StronglySorted String.le (getAvailableLanguages phrases position) /\
  NoDup (getAvailableLanguages phrases position) /\
  (forall x, x ∈ getAvailableLanguages phrases position <->
             exists phrase, phrase ∈ phrases /\ key phrase = x).
Proof.
  intros key. unfold getAvailableLanguages.
  assert (E : (if position =? 1 then language1 else language2) = key).
  { unfold key. destruct (Z.eqb_spec position 1) as [-> | Hn].
    - reflexivity.
    - rewrite bool_decide_eq_false_2 by exact Hn. reflexivity. }
  rewrite E.
  destruct (sort_setOf (key <$> phrases)) as (H1 & H2 & H3 & _).
  split; [exact H1 |]. split; [exact H2 |].
  intros x. rewrite H3, list_elem_of_fmap. split; intros (p & Hp & Hq); exists p; auto.
Qed.

Lemma format_category (phrases : list (@Phrase Metadata Raw)) options :
  category <$> formatVeganPhrasesForDisplay front back phrases options = category <$> phrases.
Proof.
  unfold formatVeganPhrasesForDisplay. rewrite <- list_fmap_compose.
  apply list_fmap_ext. intros i x _. reflexivity.
Qed.

Lemma format_language2 (phrases : list (@Phrase Metadata Raw)) options :
  language2 <$> formatVeganPhrasesForDisplay front back phrases options = language2 <$> phrases.
Proof.
  unfold formatVeganPhrasesForDisplay. rewrite <- list_fmap_compose.
  apply list_fmap_ext. intros i x _. reflexivity.
Qed.

Lemma filter_no_filters {Content} (phrases : list (@Phrase Metadata Content)) :
  filterVeganPhrases phrases noFilters = phrases.
Proof.
  unfold filterVeganPhrases. apply filter_all. intros phrase _.
  apply passes_no_filter; reflexivity.
Qed.

Lemma passes_category {Content} (w : string) l1 l2 (phrase : @Phrase Metadata Content) :
  w <> "" -> passes (mkFilters (Some w) l1 l2) phrase = true -> category phrase = w.
Proof.
  intros Hw. unfold passes. cbn [filters_category].
  rewrite rejects_truthy by exact Hw.
  case_bool_decide as E; [intros _; exact E | discriminate].
Qed.

Lemma passes_language2 {Content} c l1 (w : string) (phrase : @Phrase Metadata Content) :
  w <> "" -> passes (mkFilters c l1 (Some w)) phrase = true -> language2 phrase = w.
Proof.
  intros Hw. unfold passes. cbn [filters_category filters_language1 filters_language2].
  rewrite (rejects_truthy w) by exact Hw.
  destruct (rejects c (category phrase)); [discriminate |].
  destruct (rejects l1 (language1 phrase)); [discriminate |].
  case_bool_decide as E; [intros _; exact E | discriminate].
Qed.

Lemma rejects_same (w : string) : rejects (Some w) w = false.
Proof.
  unfold rejects. rewrite bool_decide_eq_true_2 by reflexivity. apply andb_false_r.
Qed.

Lemma format_nonempty (phrases : list (@Phrase Metadata Raw)) options phrase :
  phrase ∈ phrases -> formatVeganPhrasesForDisplay front back phrases options <> [].
Proof.
  intros Hin E. apply fmap_nil_inv in E. subst phrases. inversion Hin.
Qed.

Lemma controlsRendered_nonempty (cards : list (@Phrase Metadata JSX)) :
  cards <> [] -> controlsRendered (render (mount (mkProps cards 5 true))) = true.
Proof. destruct cards; [contradiction | reflexivity]. Qed.

(** X26 — every option of the two dropdowns shows cards.  Choosing a
    category that the dropdown offers, with "All Languages", gives the
    slideshow a non-empty list (so it renders its card and controls, not
    "No cards available"), and every card is of that category; likewise
    for a language with "All Categories"; and with both on "All" every
    phrase is shown. *)
Theorem dropdown_option_shows_cards (veganPhrases : list (@Phrase Metadata Raw))
    (choice : string) :
  (choice ∈ App_categories front back veganPhrases ->
   let cards := App_cards front back veganPhrases choice "" in
   cards <> [] /\
   controlsRendered (render (mount (mkProps cards 5 true))) = true /\
   (choice <> "" -> Forall (fun card => category card = choice) cards)) /\
  (choice ∈ App_languages front back veganPhrases ->
   let cards := App_cards front back veganPhrases "" choice in
   cards <> [] /\
   controlsRendered (render (mount (mkProps cards 5 true))) = true /\
   (choice <> "" -> Forall (fun card => language2 card = choice) cards)) /\
  length (App_cards front back veganPhrases "" "") = length veganPhrases.
Proof.
  split; [| split].
  - intros Hin cards.
    unfold App_categories, getAvailableCategories, loadFormattedVeganPhrases in Hin.
    rewrite sort_setOf_elem in Hin.
    rewrite format_category, filter_no_filters in Hin.
    apply list_elem_of_fmap in Hin as (phrase & Hc & Hin).
    assert (Hne : cards <> []).
    { apply (format_nonempty _ _ phrase). unfold filterVeganPhrases.
      apply list_elem_of_filter. split; [| exact Hin].
      unfold passes. cbn [filters_category filters_language1 filters_language2].
      rewrite Hc, rejects_same. reflexivity. }
    split; [exact Hne |]. split; [exact (controlsRendered_nonempty cards Hne) |].
    intros Hw. apply Forall_forall. intros card Hcard.
    unfold cards, App_cards, loadFormattedVeganPhrases, formatVeganPhrasesForDisplay in Hcard.
    apply list_elem_of_fmap in Hcard as (p & -> & Hp). cbn [category].
    unfold filterVeganPhrases in Hp. apply list_elem_of_filter in Hp as [Hp _].
    exact (passes_category _ _ _ _ Hw Hp).
  - intros Hin cards.
    unfold App_languages, getAvailableLanguages, loadFormattedVeganPhrases in Hin.
    cbn [Z.eqb Pos.eqb] in Hin.
    rewrite sort_setOf_elem in Hin.
    rewrite format_language2, filter_no_filters in Hin.
    apply list_elem_of_fmap in Hin as (phrase & Hc & Hin).
    assert (Hne : cards <> []).
    { apply (format_nonempty _ _ phrase). unfold filterVeganPhrases.
      apply list_elem_of_filter. split; [| exact Hin].
      unfold passes. cbn [filters_category filters_language1 filters_language2].
      rewrite Hc, rejects_same. reflexivity. }
    split; [exact Hne |]. split; [exact (controlsRendered_nonempty cards Hne) |].
    intros Hw. apply Forall_forall. intros card Hcard.
    unfold cards, App_cards, loadFormattedVeganPhrases, formatVeganPhrasesForDisplay in Hcard.
    apply list_elem_of_fmap in Hcard as (p & -> & Hp). cbn [language2].
    unfold filterVeganPhrases in Hp. apply list_elem_of_filter in Hp as [Hp _].
    exact (passes_language2 _ _ _ _ Hw Hp).
  - unfold App_cards, loadFormattedVeganPhrases, formatVeganPhrasesForDisplay.
    rewrite length_fmap. f_equal. unfold filterVeganPhrases.
    apply filter_all. intros phrase _. apply passes_no_filter; reflexivity.
Qed.

(** X27 — the card loader's category filter is the adapter's: for every
    category, given or not, [filterCardsByCategory] returns what
    [filterVeganPhrases] returns for that category alone. *)
Theorem category_filters_agree {Content} (cards : list (@Phrase Metadata Content)) c :
  filterCardsByCategory cards c = filterVeganPhrases cards (mkFilters c None None).
Proof.
  unfold filterCardsByCategory, filterVeganPhrases.
  destruct (truthy c) eqn:Ht; cbn [negb].
  - apply list_filter_iff. intros card. unfold passes.
    cbn [filters_category filters_language1 filters_language2].
    unfold rejects. rewrite Ht. cbn [andb truthy].
    case_bool_decide as E; cbn [negb]; split; congruence.
  - symmetry. apply filter_all. intros card _. apply passes_no_filter; [exact Ht | reflexivity ..].
Qed.

End PhraseAdapter.

(** * The age of the user *)

Section UserAge.
Import Profile.

Context {Others Rest : Type}.

Implicit Types (profile : @Profile.Profile Others Rest) (today : Today).

(** X28 — the age set on the slider against the age after a reload.
    [handleAgeChange] stores [value] and the birth year [currentYear -
    value] and keeps the birth month (on a [null] profile it does
    nothing).  [updateProfileAge], which [loadUserProfile] applies to the
    stored profile, then computes [value] again when the current month has
    reached the birth month (or there is none) and [value - 1] when it has
    not; the data loader's [getCurrentAge], which ignores the month,
    computes [value] always.  The screen shows [value], or 57 for 0. *)
Theorem age_after_reload today (value : Z) profile :
  handleAgeChange today value (@None (@Profile.Profile Others Rest)) = None /\
  exists profile',
    handleAgeChange today value (Some profile) = Some profile' /\
    rest profile' = rest profile /\
    currentAge (Some profile') = (if value =? 0 then 57 else value) /\
    forall stored : Rest,
      let reloaded := updateProfileAge today (mkProfile (demographics profile') stored) in
      getCurrentAge_dataLoader today reloaded = value /\
      birth_year (demographics reloaded) = getFullYear today - value /\
      age (demographics reloaded) =
        (if beforeBirthMonth (getMonth today + 1) (birth_month (demographics profile))
         then value - 1 else value).
Proof.
  split; [reflexivity |].
  eexists. split; [reflexivity |]. split; [reflexivity |]. split; [reflexivity |].
  intros stored reloaded.
  unfold reloaded, getCurrentAge_dataLoader, updateProfileAge, getCurrentAge.
  cbn [demographics age birth_year birth_month rest].
  split; [lia |]. split; [reflexivity |].
  destruct (beforeBirthMonth _ _); lia.
Qed.

(** X29 — age never runs backwards.  Between two dates, the later in a
    later year or in the same year and no earlier month, [getCurrentAge]
    does not decrease; a year later in the same month it is one more; and
    it is the data loader's age or one less. *)
Theorem age_is_monotone today today' profile :
  getFullYear today < getFullYear today' \/
  (getFullYear today = getFullYear today' /\ getMonth today <= getMonth today') ->
  getCurrentAge today profile <= getCurrentAge today' profile /\
  getCurrentAge (mkToday (getFullYear today + 1) (getMonth today)) profile
    = getCurrentAge today profile + 1 /\
  getCurrentAge_dataLoader today profile - 1 <= getCurrentAge today profile
    <= getCurrentAge_dataLoader today profile.
Proof.
  intros H. unfold getCurrentAge, getCurrentAge_dataLoader.
  cbn [getFullYear getMonth].
  destruct (birth_month (demographics profile)) as [m |]; cbn [beforeBirthMonth].
  - destruct (Z.ltb_spec (getMonth today + 1) m), (Z.ltb_spec (getMonth today' + 1) m); lia.
  - lia.
Qed.

End UserAge.

(** * Concrete runs *)

(** The handles of the first render: 1 is the progress interval, 2 the
    rotation interval, 3 the next handle to be handed out. *)
Example mount_three_cards :
  let w := mount three_cards in
  timers w !! 1%positive = Some (Interval 50 ProgressTick) /\
  (exists r, timers w !! 2%positive = Some (Interval 5000 (CardRotation r))) /\
  next_timer w = 3%positive.
Proof. split; [reflexivity |]. split; [eexists; reflexivity | reflexivity]. Qed.

(** "Basic autoplay": the rotation interval fires three times, with progress
    ticks in between, and the index goes 0, 1, 2, 0 with the bar reset. *)
Example basic_autoplay :
  let w1 := run (mount three_cards) [TimerFires 1; TimerFires 1; TimerFires 2]%positive in
  let w3 := run w1 [TimerFires 4; TimerFires 6]%positive in
  progress (state (run (mount three_cards) [TimerFires 1; TimerFires 1]%positive)) = 2 /\
  currentCardIndex (state w1) = 1 /\ progress (state w1) = 0 /\
  currentCardIndex (state w3) = 0 /\ progress (state w3) = 0.
Proof. vm_compute. repeat split; reflexivity. Qed.

(** ** C1: the flip-revert timer against a second click *)

(** Card 0 of three, playing: click, then the timeout (handle 3) fires —
    autoplay stays off; click, then click again — autoplay is back on. *)
Example flip_revert_versus_second_click :
  isAutoPlaying (state (run (mount three_cards) [ClickCard; TimerFires 3%positive]))
    = false /\
  isAutoPlaying (state (run (mount three_cards) [ClickCard; ClickCard])) = true.
Proof. split; reflexivity. Qed.

(** ** C2 *)

Lemma C2_navigate_cancels_flip_witness :
  let w := run (mount three_cards) [ClickCard] in
  let w' := step w ClickNext in
  (isFlipped (state w) = true /\ flipTimer (state w) = Some 3%positive) /\
  isFlipped (state w') = false /\ isAutoPlaying (state w') = true /\
  currentCardIndex (state w') = 1 /\
  step w' (TimerFires 3%positive) = w'.
Proof.
  intros w w'.
  assert (Hr : reachable w) by (exists three_cards, [ClickCard]; reflexivity).
  assert (Hf : isFlipped (state w) = true) by reflexivity.
  assert (Hn : 0 < cards_length (render w)) by reflexivity.
  destruct (C2_navigate_cancels_flip w ClickNext Hr Hf Hn (or_introl eq_refl))
    as (H1 & _ & H3 & _ & H5 & _ & H7).
  split; [split; reflexivity |].
  split; [exact H1 |]. split; [exact H3 |]. split; [exact H5 |].
  exact (proj2 (proj2 (H7 3%positive eq_refl))).
Defined.

(** ** C3 *)

Lemma C3_wrap_around_witness :
  let w := run (mount three_cards) [ClickNext] in
  currentCardIndex (state w) = 1 /\
  currentCardIndex (state (run w [ClickNext; ClickNext; ClickNext])) = 1 /\
  currentCardIndex (state (run w [ClickPrev; ClickPrev; ClickPrev])) = 1.
Proof.
  intros w.
  assert (Hl : length (cards (props w)) = 3%nat) by reflexivity.
  assert (Hn : (0 < 3)%nat) by lia.
  assert (Hi : 0 <= currentCardIndex (state w) < Z.of_nat 3) by (split; vm_compute; congruence).
  split; [reflexivity |].
  exact (C3_wrap_around w 3 Hl Hn Hi).
Defined.

(** ** C4 *)

Lemma C4_index_range_invariant_witness :
  0 <= currentCardIndex (state (run (mount three_cards)
         [ClickPrev; ClickCard; ClickPrev; ClickPlayPause; TimerFires 2%positive;
          TouchStart 300; TouchMove 100; TouchEnd; ClickNext])) < 3.
Proof.
  apply (C4_index_range_invariant three_cards).
  - simpl. lia.
  - repeat constructor.
Defined.

(** ** C5 *)

Lemma C5_progress_reset_on_navigate_witness :
  let w := run (mount one_card) [TimerFires 1; TimerFires 1; TimerFires 1]%positive in
  progress (state w) = 3 /\
  progress (state (commit (nextCard (render w) w))) = 0 /\
  currentCardIndex (state (commit (nextCard (render w) w))) = 0.
Proof.
  intros w.
  assert (Hn : 0 < cards_length (render w)) by reflexivity.
  destruct (C5_progress_reset_on_navigate (render w) w Hn) as ((_ & H1) & _ & H3).
  split; [reflexivity |]. split; [exact H1 |].
  exact (proj1 (H3 eq_refl eq_refl)).
Defined.

(** ** C6 *)

Lemma C6_empty_sequence_witness :
  let w := run (mount no_cards) [ClickCard; ClickPlayPause; ClickNext] in
  w = mount no_cards /\ currentCard (render w) = None /\ timers w = ∅.
Proof.
  intros w.
  assert (Hr : reachable w)
    by (exists no_cards, [ClickCard; ClickPlayPause; ClickNext]; reflexivity).
  assert (He : cards (props w) = []) by reflexivity.
  destruct (C6_empty_sequence w Hr He) as (H1 & H2 & _).
  split; [reflexivity |]. split; [exact H1 | exact H2].
Defined.

(** ** C7 *)

(** C7 — gesture threshold, on the code: a swipe that starts at x = 200 and
    ends on the left edge of the viewport, x = 0, has distance 200 > 50 and
    yet does not navigate, because [handleTouchEnd] takes the end
    coordinate 0 for a missing one; the same swipe ending at x = 149
    (distance 51) moves to the next card, and one ending at x = 151
    (distance 49) or x = 150 (distance 50) does not. *)
Theorem C7_swipe_to_left_edge_ignored :
  let gesture x_start x_end := [TouchStart x_start; TouchMove x_end; TouchEnd] in
  let w := mount three_cards in
  currentCardIndex (state (run w (gesture 200 0))) = 0 /\
  run w (gesture 200 0) = run w [TouchStart 200; TouchMove 0] /\
  currentCardIndex (state (run w (gesture 200 149))) = 1 /\
  currentCardIndex (state (run w (gesture 200 151))) = 0 /\
  currentCardIndex (state (run w (gesture 200 150))) = 0 /\
  currentCardIndex (state (run w (gesture 149 200))) = 2.
Proof. vm_compute. repeat split; reflexivity. Qed.

(** ** C8 *)

(** After a gesture below the threshold (distance 10) both coordinates are
    still recorded; and a second touch-end that no touch-start precedes (a
    second finger leaving the card) reuses the coordinates of a swipe and
    navigates once more. *)
Lemma C8_counterexample :
  let w := run (mount three_cards) [TouchStart 200; TouchMove 190; TouchEnd] in
  ~ (touchStart (state w) = None /\ touchEnd (state w) = None) /\
  touchStart (state w) = Some 200 /\ touchEnd (state w) = Some 190 /\
  currentCardIndex
    (state (run (mount three_cards) [TouchStart 200; TouchMove 100; TouchEnd])) = 1 /\
  currentCardIndex
    (state (run (mount three_cards) [TouchStart 200; TouchMove 100; TouchEnd; TouchEnd]))
    = 2.
Proof.
  intros w. split; [intros [H _]; vm_compute in H; discriminate |].
  vm_compute. repeat split; reflexivity.
Qed.

Lemma C8_coordinates_reset_at_touch_start_witness :
  let w := run (mount three_cards) [TouchStart 200; TouchMove 190; TouchEnd] in
  let clean := run (mount three_cards) [] in
  touchStart (state w) = Some 200 /\
  step w (TouchStart 120) = step clean (TouchStart 120).
Proof.
  intros w clean.
  assert (Hn : 0 < cards_length (render clean)) by reflexivity.
  destruct (C8_coordinates_reset_at_touch_start clean) as (_ & H).
  destruct (H Hn (Some 200) (Some 190) 120) as (H1 & _).
  split; [reflexivity |]. exact H1.
Defined.

(** ** C9 *)

(** On card 2 of three, the list is replaced by a list of one card: the
    index stays 2 where the specification wants 0, and no card is current.
    A card flipped while the list is replaced stays flipped with its revert
    timer cancelled. *)
Lemma C9_counterexample :
  let w := run (mount three_cards) [ClickNext; ClickNext] in
  let w' := step w (NewProps one_card) in
  currentCardIndex (state w) = 2 /\
  currentCardIndex (state w') <> clampedIndex (currentCardIndex (state w)) 1 /\
  currentCardIndex (state w') = 2 /\ currentCard (render w') = None /\
  let f := run (mount three_cards) [ClickCard; NewProps one_card] in
  isFlipped (state f) = true /\ timers f = ∅.
Proof.
  intros w w'. split; [reflexivity |].
  split; [vm_compute; discriminate |].
  split; [reflexivity |]. split; [reflexivity |].
  split; reflexivity.
Qed.

Lemma C9_replacing_cards_keeps_index_witness :
  let w := run (mount three_cards) [ClickNext; ClickNext] in
  let w' := step w (NewProps one_card) in
  currentCardIndex (state w') = 2 /\ progress (state w') = 0 /\
  currentCard (render w') = None.
Proof.
  intros w w'.
  assert (Hr : reachable w)
    by (exists three_cards, [ClickNext; ClickNext]; reflexivity).
  destruct (C9_replacing_cards_keeps_index w one_card Hr)
    as (_ & H2 & _ & _ & H5 & _ & H7).
  split; [exact H2 |].
  split; [apply H7; discriminate | apply H5; vm_compute; discriminate].
Defined.

(** ** C10 *)

Lemma C10_progress_zero_unless_playing_witness :
  let w := run (mount three_cards) [TimerFires 1; TimerFires 1]%positive in
  let paused :=
    run (mount three_cards) [TimerFires 1; TimerFires 1; ClickPlayPause]%positive in
  progress (state w) = 2 /\
  isAutoPlaying (state paused) = false /\
  progress (state paused) = 0 /\
  progress (state (step w ClickCard)) = 0.
Proof.
  intros w paused.
  assert (Hr : reachable w)
    by (exists three_cards, [TimerFires 1; TimerFires 1]%positive; reflexivity).
  assert (Hr' : reachable paused)
    by (exists three_cards, [TimerFires 1; TimerFires 1; ClickPlayPause]%positive;
        reflexivity).
  assert (Hn : 0 < cards_length (render w)) by reflexivity.
  assert (Hoff : isAutoPlaying (state paused) = false) by (vm_compute; reflexivity).
  destruct (C10_progress_zero_unless_playing paused Hr') as (H1 & _).
  destruct (C10_progress_zero_unless_playing w Hr) as (_ & H2).
  split; [vm_compute; reflexivity |]. split; [exact Hoff |].
  split; [exact (H1 (or_introl Hoff)) |].
  exact (proj1 (proj2 (H2 eq_refl eq_refl Hn ClickCard (or_intror eq_refl)))).
Defined.

(** * Concrete runs of the further properties *)

Lemma index_never_negative_and_repaired_witness :
  let w := run (mount three_cards) [ClickPrev; NewProps one_card] in
  currentCardIndex (state w) = 2 /\ cards_length (render w) = 1 /\
  0 <= currentCardIndex (state (step w ClickNext))
    < cards_length (render (step w ClickNext)).
Proof.
  intros w.
  assert (Hr : reachable w)
    by (exists three_cards, [ClickPrev; NewProps one_card]; reflexivity).
  split; [reflexivity |]. split; [reflexivity |].
  exact (proj2 (index_never_negative_and_repaired w ClickNext Hr)
           eq_refl (or_introl eq_refl)).
Defined.

Lemma next_and_previous_are_inverse_witness :
  let w := mount three_cards in
  currentCardIndex (state (run w [ClickNext; ClickPrev])) = currentCardIndex (state w) /\
  currentCardIndex (state (run w [ClickPrev; ClickNext])) = currentCardIndex (state w).
Proof.
  intros w.
  apply (next_and_previous_are_inverse w).
  - reflexivity.
  - split; vm_compute; congruence.
Defined.

Lemma current_card_is_a_card_witness :
  exists c,
    currentCard (render (run (mount three_cards)
                   [ClickNext; ClickCard; TimerFires 5%positive; ClickPrev; ClickPrev]))
      = Some c /\
    c ∈ cards three_cards.
Proof.
  apply (current_card_is_a_card three_cards).
  - discriminate.
  - repeat constructor.
Defined.

Lemma autoplay_armed_iff_playing_witness :
  let w := run (mount three_cards) [ClickNext] in
  (0 <= tickInterval (props w) * 1000 <= 2 ^ 53) /\
  exists a b r,
    a <> b /\ progressRef w = Some a /\ intervalRef w = Some b /\
    deps r = deps (render w) /\
    timers w = <[b := Interval 5000 (CardRotation r)]> {[a := Interval 50 ProgressTick]}.
Proof.
  intros w.
  assert (Hr : reachable w) by (exists three_cards, [ClickNext]; reflexivity).
  assert (Hb : 0 <= tickInterval (props w) * 1000 <= 2 ^ 53)
    by (vm_compute; split; discriminate).
  split; [exact Hb |].
  destruct (proj1 (autoplay_armed_iff_playing w Hr) eq_refl)
    as (a & b & r & d1 & d2 & Hab & Hpa & Hpb & Hd & Ht & Hp).
  destruct (Hp Hb) as [E1 E2].
  exists a, b, r.
  split; [exact Hab |]. split; [exact Hpa |]. split; [exact Hpb |].
  split; [exact Hd |].
  rewrite Ht, E1, E2. reflexivity.
Defined.

Lemma no_timer_leak_witness :
  let w := run (mount three_cards) [ClickCard] in
  (forall id d cb, timers w !! id = Some (Timeout d cb) ->
     flipTimer (state w) = Some id /\ d = 5000) /\
  (forall id1 id2 d1 d2 cb1 cb2,
     timers w !! id1 = Some (Timeout d1 cb1) ->
     timers w !! id2 = Some (Timeout d2 cb2) -> id1 = id2) /\
  (size (timers w) <= 2)%nat.
Proof.
  intros w.
  apply (no_timer_leak w).
  exists three_cards, [ClickCard]. reflexivity.
Defined.

Lemma progress_tick_only_moves_the_bar_witness :
  let w := mount three_cards in
  step w (TimerFires 1%positive) = setProgress progressStep w /\
  progress (state (step w (TimerFires 1%positive))) =
    (if 100 <=? progress (state w) then 0 else progress (state w) + 1).
Proof.
  intros w.
  apply (progress_tick_only_moves_the_bar w 1%positive 50).
  - exists three_cards, []. reflexivity.
  - reflexivity.
Defined.

Lemma rotation_is_next_witness :
  let w := mount three_cards in
  let w' := step w (TimerFires 2%positive) in
  currentCardIndex (state w') =
    Z.rem (currentCardIndex (state w) + 1) (cards_length (render w)) /\
  progress (state w') = 0 /\
  autoplayOn (render w') = true /\
  (currentCardIndex (state w') <> currentCardIndex (state w) ->
   timers w' !! 2%positive = None) /\
  (currentCardIndex (state w') = currentCardIndex (state w) ->
   timers w' = timers w).
Proof.
  intros w.
  eapply (rotation_is_next w 2%positive 5000).
  - exists three_cards, []. reflexivity.
  - reflexivity.
Defined.

Lemma play_pause_while_flipped_cancels_revert_witness :
  let w := run (mount three_cards) [ClickCard] in
  let w' := step w ClickPlayPause in
  isFlipped (state w') = true /\
  flipTimer (state w') = flipTimer (state w) /\
  isAutoPlaying (state w') = negb (isAutoPlaying (state w)) /\
  timers w' = ∅ /\
  forall id, step w' (TimerFires id) = w'.
Proof.
  intros w.
  apply (play_pause_while_flipped_cancels_revert w).
  - exists three_cards, [ClickCard]. reflexivity.
  - reflexivity.
  - reflexivity.
Defined.

Lemma flip_twice_restores_the_state_witness :
  let w := run (mount three_cards) [ClickNext; ClickPlayPause] in
  state (run w [ClickCard; ClickCard]) = resetProgress (state w) /\
  forall id d cb, timers (run w [ClickCard; ClickCard]) !! id <> Some (Timeout d cb).
Proof.
  intros w.
  apply (flip_twice_restores_the_state w).
  - exists three_cards, [ClickNext; ClickPlayPause]. reflexivity.
  - reflexivity.
  - reflexivity.
Defined.

Lemma flip_and_timer_from_paused_witness :
  let w := run (mount three_cards) [ClickPlayPause] in
  state (run w [ClickCard; TimerFires (next_timer w)]) = state w.
Proof.
  intros w.
  apply (flip_and_timer_from_paused w).
  - exists three_cards, [ClickPlayPause]. reflexivity.
  - reflexivity.
  - reflexivity.
  - reflexivity.
Defined.

Lemma play_pause_twice_restores_the_state_witness :
  let w := run (mount three_cards) [TimerFires 1%positive] in
  isAutoPlaying (state (step w ClickPlayPause)) = negb (isAutoPlaying (state w)) /\
  state (run w [ClickPlayPause; ClickPlayPause]) = resetProgress (state w).
Proof.
  intros w.
  apply (play_pause_twice_restores_the_state w).
  - exists three_cards, [TimerFires 1%positive]. reflexivity.
  - reflexivity.
Defined.

Lemma tap_does_not_navigate_witness :
  let w := run (mount three_cards) [TouchStart 300; TouchMove 100; TouchEnd] in
  run w [TouchStart 120; TouchEnd] = run w [TouchStart 120] /\
  currentCardIndex (state (run w [TouchStart 120; TouchEnd])) = currentCardIndex (state w).
Proof.
  intros w.
  apply (tap_does_not_navigate w 120).
  - exists three_cards, [TouchStart 300; TouchMove 100; TouchEnd]. reflexivity.
  - reflexivity.
Defined.

Lemma swipe_is_a_button_press_witness :
  let w := mount three_cards in
  let g := run w [TouchStart 300; TouchMove 100] in
  run w [TouchStart 300; TouchMove 100; TouchEnd] =
    (if 50 <? 300 - 100 then step g ClickNext
     else if 300 - 100 <? -50 then step g ClickPrev
     else g) /\
  forall y0, run w [TouchStart 300; TouchMove y0; TouchMove 100] = g.
Proof.
  intros w.
  apply (swipe_is_a_button_press w 300 100).
  - exists three_cards, []. reflexivity.
  - reflexivity.
  - discriminate.
  - discriminate.
Defined.

(** * Concrete runs of the other modules *)

Lemma activity_ids_stay_distinct_witness :
  NoDup (Finitude.ids (Finitude.edit two_activities (Finitude.DeleteActivity 1))).
Proof.
  apply (activity_ids_stay_distinct two_activities (Finitude.DeleteActivity 1)).
  apply (bool_decide_unpack _). vm_compute. exact I.
Defined.

Lemma save_replaces_the_edited_activity_witness :
  let a := Finitude.mkActivity 2 "Full moons" in
  let s1 := Finitude.handleActivityEdit a two_activities in
  let s2 := Finitude.handleActivitySave (Finitude.handleSave a "New moons") s1 in
  Finitude.editingActivity s1 = Some a /\
  Finitude.activities s2 =
    <[1%nat := Finitude.handleSave a "New moons"]> (Finitude.activities two_activities) /\
  Finitude.ids s2 = Finitude.ids two_activities /\
  Finitude.editingActivity s2 = None.
Proof.
  apply (save_replaces_the_edited_activity two_activities 1).
  - apply (bool_decide_unpack _). vm_compute. exact I.
  - reflexivity.
Defined.

Lemma save_of_an_unknown_id_is_lost_witness :
  let u := Finitude.mkActivity 7 "Eclipses" in
  Finitude.activities (Finitude.handleActivitySave u two_activities)
    = Finitude.activities two_activities /\
  Finitude.editingActivity (Finitude.handleActivitySave u two_activities) = None.
Proof.
  apply (save_of_an_unknown_id_is_lost two_activities).
  apply (bool_decide_unpack _). vm_compute. exact I.
Defined.

Lemma delete_removes_exactly_one_witness :
  Finitude.activities (Finitude.handleActivityDelete 1 two_activities)
    = [Finitude.mkActivity 2 "Full moons"].
Proof.
  apply (delete_removes_exactly_one two_activities 0 (Finitude.mkActivity 1 "Sunsets")).
  - apply (bool_decide_unpack _). vm_compute. exact I.
  - reflexivity.
Defined.

Lemma default_activities_have_distinct_ids_witness :
  let defaults := ["Sunsets"; "Full moons"; "Summers"] in
  let shuffled :=
    reverse (Finitude.convertActivitiesToLegacyFormat (fun n : string => n) defaults) in
  Finitude.id <$> shuffled = [3; 2; 1] /\
  NoDup (Finitude.id <$> shuffled).
Proof.
  intros defaults shuffled. split; [reflexivity |].
  apply (default_activities_have_distinct_ids (fun n : string => n) defaults
           (Some []) shuffled).
  - right. reflexivity.
  - exact (reverse_Permutation _).
Defined.

Lemma delete_leaves_the_current_card_dangling_witness :
  let withCount := fun a : @Finitude.Activity string => (a, 21 * Finitude.id a) in
  let s' := Finitude.handleActivityDelete 1 two_activities in
  is_Some (Finitude.currentActivity withCount two_activities) /\
  Finitude.currentCard s' = Finitude.currentCard two_activities /\
  Finitude.showsLoading withCount s' = false /\
  Finitude.currentActivity withCount s' = None.
Proof.
  intros withCount.
  apply (delete_leaves_the_current_card_dangling withCount two_activities 0
           (Finitude.mkActivity 1 "Sunsets")).
  - apply (bool_decide_unpack _). vm_compute. exact I.
  - reflexivity.
  - vm_compute. lia.
  - reflexivity.
Defined.

Lemma rotation_with_quotes_witness :
  let withCount := fun a : @Finitude.Activity string => (a, 21 * Finitude.id a) in
  let quotes := ["Memento mori"] in
  let s' := foldl (fun s d => Finitude.navigateToNextCard withCount quotes d.1 d.2 s)
                  two_activities [(false, 0); (true, 0); (false, 0)] in
  Finitude.currentCard s' = 1 /\ Finitude.currentCardType s' = "activity" /\
  Finitude.currentCard s' =
    (Finitude.currentCard two_activities + 2)
      mod Z.of_nat (length (Finitude.activities two_activities)).
Proof.
  intros withCount quotes s'. split; [reflexivity |]. split; [reflexivity |].
  apply (rotation_with_quotes withCount quotes two_activities
           [(false, 0); (true, 0); (false, 0)]).
  - discriminate.
  - split; vm_compute; congruence.
Defined.

Lemma age_is_monotone_witness :
  let march := Profile.mkToday 2025 2 in
  let july := Profile.mkToday 2025 6 in
  Profile.getCurrentAge march born_in_june = 56 /\
  Profile.getCurrentAge july born_in_june = 57 /\
  Profile.getCurrentAge march born_in_june <= Profile.getCurrentAge july born_in_june.
Proof.
  intros march july. split; [reflexivity |]. split; [reflexivity |].
  apply (age_is_monotone march july born_in_june).
  right. split; [reflexivity | vm_compute; discriminate].
Defined.
